(** * The result cache and the multi-source merge of the music search page

    A shallow embedding of [CacheManager] (the copies in the page
    scripts and the module [CacheManager.js]) and of the search
    pipeline of [js/modules/MusicPlayer.js] ([validateDataAPI1..3],
    [mapQuality], [mergeResults], [searchSongs]), followed by the
    properties of the specification that concern them.

    Conventions of the embedding.
    - JavaScript values are the inductive [jsval]; numbers are integers
      (the program only compares, subtracts and prints them).
    - Strings are byte strings holding UTF-8 text.
    - The built-ins whose results depend on tables of the engine
      ([String.prototype.toLowerCase], the printing of a number and of a
      function) are the fields of a record [engine], known by the laws
      stated there; the search pipeline is parameterised by it.
    - A JavaScript object used as a map is an association list in
      insertion order, which is the order [Object.keys] enumerates
      (no key of the program is an array index).
    - [localStorage] and [Date.now()] are the two effects; they live in
      the record [world] and are threaded by the monad [M], which also
      carries a thrown exception. *)

From stdpp Require Import base numbers list sorting strings pretty gmap.
From Stdlib Require Import Ascii QArith.

Set Warnings "-register-all".
Close Scope Q_scope.
Open Scope Z_scope.

(** ** JavaScript values *)

Module JS.

(** [VBuiltin name] is the member every object inherits under [name]
    from [Object.prototype].  The program comes by such a value only
    through the lookup [qualityMap[br]] and keeps it as the [quality] of
    an item; no function is stored under a name the language itself
    calls ([toString], [valueOf], [toJSON]), so an own property of such
    a name holds data. *)
Inductive jsval : Type :=
| VUndef
| VNull
| VBool (b : bool)
| VNum (n : Z)
| VStr (s : string)
| VArr (items : list jsval)
| VObj (props : list (string * jsval))
| VBuiltin (name : string).

Inductive exn : Type :=
| SyntaxError
| TypeError
| Error (message : string).

Inductive result (A : Type) : Type :=
| Ok (a : A)
| Throw (e : exn).
Arguments Ok {A} a.
Arguments Throw {A} e.

Definition rbind {A B} (r : result A) (f : A → result B) : result B :=
  match r with
  | Ok a => f a
  | Throw e => Throw e
  end.

(** [xs.map(f)] where [f] may throw: the first exception ends the loop. *)
Fixpoint map_result {A B} (f : A → result B) (xs : list A) : result (list B) :=
  match xs with
  | [] => Ok []
  | x :: xs' =>
      rbind (f x) (λ y, rbind (map_result f xs') (λ ys, Ok (y :: ys)))
  end.

(** [if (v)], [!v], [v || d], [v && w] *)
Definition truthy (v : jsval) : bool :=
  match v with
  | VUndef | VNull => false
  | VBool b => b
  | VNum n => negb (n =? 0)
  | VStr s => negb (String.eqb s "")
  | VArr _ | VObj _ | VBuiltin _ => true
  end.

Definition or_else (v d : jsval) : jsval := if truthy v then v else d.

Definition isArray (v : jsval) : bool :=
  match v with VArr _ => true | _ => false end.

(** [v == null]: the two values whose properties cannot be read. *)
Definition nullish (v : jsval) : bool :=
  match v with VUndef | VNull => true | _ => false end.

(** [v === VNum n] *)
Definition strict_eq_num (v : jsval) (n : Z) : bool :=
  match v with VNum m => m =? n | _ => false end.

(** Own properties of an object, as an association list in insertion order. *)
Section Object.
Context {V : Type}.

Fixpoint obj_get (k : string) (o : list (string * V)) : option V :=
  match o with
  | [] => None
  | (k', v) :: o' => if String.eqb k k' then Some v else obj_get k o'
  end.

(** [delete o[k]] *)
Fixpoint obj_delete (k : string) (o : list (string * V)) : list (string * V) :=
  match o with
  | [] => []
  | (k', v) :: o' =>
      if String.eqb k k' then obj_delete k o' else (k', v) :: obj_delete k o'
  end.

(** [o[k] = v]: an existing key keeps its place, a new key goes last. *)
Fixpoint obj_set (k : string) (v : V) (o : list (string * V)) : list (string * V) :=
  match o with
  | [] => [(k, v)]
  | (k', v') :: o' =>
      if String.eqb k k' then (k', v) :: o' else (k', v') :: obj_set k v o'
  end.

(** [Object.keys(o)] *)
Definition obj_keys (o : list (string * V)) : list string := map fst o.
End Object.

(** [v.name] and [v[name]] for the property names the program reads
    ([code], [data], [n], [title], [singer], [song_title], [song_singer],
    [quality], [br], [artist]): none of them is defined on a primitive,
    an array, a function or a prototype, so only an object can answer,
    with its own property; reading a property of [null] or [undefined]
    throws a TypeError. *)
Definition get_prop (v : jsval) (name : string) : result jsval :=
  match v with
  | VUndef | VNull => Throw TypeError
  | VObj ps => Ok (default VUndef (obj_get name ps))
  | VBool _ | VNum _ | VStr _ | VArr _ | VBuiltin _ => Ok VUndef
  end.

(** The names every object inherits from [Object.prototype].  The value
    [VBuiltin name] is that inherited member: the prototype object itself
    for [__proto__], a function for the others. *)
Definition protoNames : list string :=
  ["constructor"; "__defineGetter__"; "__defineSetter__"; "hasOwnProperty";
   "__lookupGetter__"; "__lookupSetter__"; "isPrototypeOf";
   "propertyIsEnumerable"; "toString"; "valueOf"; "__proto__"; "toLocaleString"].

Definition isFunction (v : jsval) : bool :=
  match v with
  | VBuiltin name => negb (String.eqb name "__proto__")
  | _ => false
  end.

(** [s.toLowerCase()] for a string of ASCII characters: the letters A-Z
    are lowered, nothing else changes. *)
Definition lower_ascii (c : ascii) : ascii :=
  let n := nat_of_ascii c in
  if ((65 <=? n)%nat && (n <=? 90)%nat)%bool then ascii_of_nat (n + 32) else c.

Fixpoint toLowerCaseASCII (s : string) : string :=
  match s with
  | EmptyString => EmptyString
  | String c s' => String (lower_ascii c) (toLowerCaseASCII s')
  end.

(** The text holds ASCII characters only (every byte is below 128). *)
Fixpoint ascii_text (s : string) : bool :=
  match s with
  | EmptyString => true
  | String c s' => (nat_of_ascii c <? 128)%nat && ascii_text s'
  end.

(** The built-ins of the JavaScript engine that are taken as given:
    [String.prototype.toLowerCase] (which lowers the cased letters of
    every script), the printing of a number and the printing of a
    built-in function.  What is known of them: on a string of ASCII
    characters [toLowerCase] lowers A-Z and nothing else, and an integer
    of magnitude below 2^53 prints in decimal notation. *)
Record engine : Type := Engine {
  String_toLowerCase : string → string;
  Number_toString : Z → string;
  Function_toString : string → string;
  toLowerCase_ascii_text :
    ∀ s, ascii_text s = true → String_toLowerCase s = toLowerCaseASCII s;
  Number_toString_safe :
    ∀ n, - 2 ^ 53 < n < 2 ^ 53 → Number_toString n = pretty n
}.

(** An engine to compute with: it is exact on ASCII text and on the
    integers that print in decimal notation, and prints a built-in
    function as V8 does ([Object.prototype.constructor] is [Object]). *)
Definition asciiEngine : engine :=
  {| String_toLowerCase := toLowerCaseASCII;
     Number_toString := pretty;
     Function_toString := λ name,
       "function " +:+ (if String.eqb name "constructor" then "Object" else name)
       +:+ "() { [native code] }";
     toLowerCase_ascii_text := λ _ _, eq_refl;
     Number_toString_safe := λ _ _, eq_refl |}.

(** [Array.prototype.join] with the default separator, given how an
    element prints: [null] and [undefined] elements print as nothing. *)
Section Join.
Context (print : jsval → result string).

Fixpoint join_with (l : list jsval) : result string :=
  match l with
  | [] => Ok ""
  | x :: l' =>
      rbind (match x with VUndef | VNull => Ok "" | _ => print x end)
        (λ sx, match l' with
               | [] => Ok sx
               | _ :: _ => rbind (join_with l') (λ rest, Ok (sx +:+ "," +:+ rest))
               end)
  end.
End Join.

(** [String(v)] and the conversion of [v] to a property key.  An array
    prints its elements separated by commas, [null] and [undefined]
    elements as nothing.  An object prints as [[object Object]] through
    the inherited [toString]; an own property named [toString] hides
    it: it holds data and cannot be called, [valueOf] gives no primitive
    either, and the conversion throws a TypeError. *)
Fixpoint ToString (E : engine) (v : jsval) : result string :=
  match v with
  | VUndef => Ok "undefined"
  | VNull => Ok "null"
  | VBool true => Ok "true"
  | VBool false => Ok "false"
  | VNum n => Ok (Number_toString E n)
  | VStr s => Ok s
  | VArr l => join_with (ToString E) l
  | VObj ps =>
      match obj_get "toString" ps with
      | Some _ => Throw TypeError
      | None => Ok "[object Object]"
      end
  | VBuiltin name =>
      Ok (if String.eqb name "__proto__" then "[object Object]"
          else Function_toString E name)
  end.

(** [encodeURIComponent(s)] on UTF-8 bytes: letters, digits and
    [- _ . ! ~ * ' ( )] are kept, every other byte becomes [%XX]. *)
Definition unreserved (c : ascii) : bool :=
  let n := nat_of_ascii c in
  (((65 <=? n) && (n <=? 90)) || ((97 <=? n) && (n <=? 122))
   || ((48 <=? n) && (n <=? 57))
   || (n =? 45) || (n =? 95) || (n =? 46) || (n =? 33) || (n =? 126)
   || (n =? 42) || (n =? 39) || (n =? 40) || (n =? 41))%nat%bool.

Definition hex_digit (n : nat) : ascii :=
  if (n <? 10)%nat then ascii_of_nat (48 + n) else ascii_of_nat (55 + n).

Fixpoint encodeURIComponent (s : string) : string :=
  match s with
  | EmptyString => EmptyString
  | String c s' =>
      if unreserved c then String c (encodeURIComponent s')
      else
        let n := nat_of_ascii c in
        String "%" (String (hex_digit (n / 16)) (String (hex_digit (n mod 16))
          (encodeURIComponent s')))
  end.

(** What [JSON.stringify] does not write: [undefined] and functions. *)
Definition unwritten (v : jsval) : bool :=
  match v with
  | VUndef => true
  | _ => isFunction v
  end.

(** What [JSON.parse(JSON.stringify(v))] gives back: a property whose
    value is [undefined] or a function is left out, such an array
    element becomes [null]; the prototype object, which has no property
    of its own to write, comes back as an empty object. *)
Fixpoint JSON_roundtrip (v : jsval) : jsval :=
  match v with
  | VArr l =>
      VArr (map (fun x => if unwritten x then VNull else JSON_roundtrip x) l)
  | VObj ps =>
      VObj ((fix props (ps : list (string * jsval)) : list (string * jsval) :=
               match ps with
               | [] => []
               | (k, x) :: ps' =>
                   if unwritten x then props ps'
                   else (k, JSON_roundtrip x) :: props ps'
               end) ps)
  | VBuiltin name => if String.eqb name "__proto__" then VObj [] else VUndef
  | _ => v
  end.



(** [String(v)] returns: no object with an own [toString] has to be
    printed. *)
Fixpoint printable (v : jsval) : bool :=
  match v with
  | VArr l => forallb printable l
  | VObj ps =>
      match obj_get "toString" ps with
      | Some _ => false
      | None => true
      end
  | _ => true
  end.

End JS.

Import JS.

(** ** The two effects: [localStorage] and the clock *)

(** One cached search: [{ data, timestamp, lru }]. *)
Record entry : Type := Entry {
  data : jsval;
  timestamp : Z;
  lru : Z
}.

(** The cache object [{ [key]: entry }] in key order. *)
Abbreviation cache := (list (string * entry)).

(** The text held by [localStorage] under [config.storageKey]: nothing
    ([getItem] gives [null]), text that [JSON.parse] rejects, or the
    serialisation of a cache object of the shape this module writes. *)
Inductive stored : Type :=
| Absent
| NotJSON (raw : string)
| Doc (c : cache).

(** [clock n] is what the [n]-th call of [Date.now()] returns, in
    milliseconds; [tick] counts the calls made so far. *)
Record world : Type := World {
  localStorage : stored;
  clock : nat → Z;
  tick : nat
}.

Definition M (A : Type) : Type := world → result A * world.

Definition ret {A} (a : A) : M A := λ w, (Ok a, w).

Definition bind {A B} (m : M A) (f : A → M B) : M B :=
  λ w, match m w with
       | (Ok a, w') => f a w'
       | (Throw e, w') => (Throw e, w')
       end.

Definition throw {A} (e : exn) : M A := λ w, (Throw e, w).

(** [try { m } catch (error) { h error }] *)
Definition try_catch {A} (m : M A) (h : exn → M A) : M A :=
  λ w, match m w with
       | (Ok a, w') => (Ok a, w')
       | (Throw e, w') => h e w'
       end.

Declare Scope js_scope.
Delimit Scope js_scope with js.
Notation "'let*' x := m 'in' k" := (bind m (λ x, k))
  (at level 10, x name, m at level 100, k at level 200) : js_scope.
Notation "m ;;; k" := (bind m (λ _, k))
  (at level 100, k at level 200, right associativity) : js_scope.
Open Scope js_scope.

(** [Date.now()] *)
Definition Date_now : M Z :=
  λ w, (Ok (clock w (tick w)),
        {| localStorage := localStorage w; clock := clock w; tick := S (tick w) |}).

(** The stored form of one entry and of a cache object. *)
Definition JSON_entry (e : entry) : entry :=
  {| data := JSON_roundtrip (data e); timestamp := timestamp e; lru := lru e |}.

Definition JSON_cache (c : cache) : cache := map (λ p, (p.1, JSON_entry p.2)) c.

(** [localStorage.setItem(storageKey, JSON.stringify(cache))], the
    storage taken to have room for the text. *)
Definition setItem (c : cache) : M () :=
  λ w, (Ok (),
        {| localStorage := Doc (JSON_cache c); clock := clock w; tick := tick w |}).

(** [localStorage.removeItem(storageKey)] *)
Definition removeItem : M () :=
  λ w, (Ok (), {| localStorage := Absent; clock := clock w; tick := tick w |}).

(** [JSON.parse(localStorage.getItem(storageKey)) || {}] *)
Definition loadCache : M cache :=
  λ w, match localStorage w with
       | Absent => (Ok [], w)
       | NotJSON _ => (Throw SyntaxError, w)
       | Doc c => (Ok c, w)
       end.

(** ** CacheManager *)

(** The copies of [CacheManager] differ in the key prefix and in what
    [get] does with a payload that is not an array. *)
Record variant : Type := Variant {
  keyPrefix : string;
  arrayGuard : bool
}.

(** The page scripts ([src/unnamed/part_001], [part_002]). *)
Definition page : variant := {| keyPrefix := "search_"; arrayGuard := false |}.
(** The module [./CacheManager.js] that [MusicPlayer.js] imports (its
    text follows [ThemeManager] in [src/js/modules/ThemeManager.js]). *)
Definition module_js : variant := {| keyPrefix := "multisearch_"; arrayGuard := true |}.

Module CacheManager.

Definition maxItems : nat := 15.
Definition expireHours : Z := 2.
Definition msPerHour : Z := 1000 * 60 * 60.

(** [prefix + encodeURIComponent(query).toLowerCase()]: what is lowered
    is the output of [encodeURIComponent], which is ASCII text. *)
Definition generateKey (v : variant) (query : string) : string :=
  keyPrefix v +:+ toLowerCaseASCII (encodeURIComponent query).

(** [(now - timestamp) / (1000 * 60 * 60)], as an exact quotient: on
    integer milliseconds the rounding of the division does not change
    on which side of [expireHours] the quotient falls. *)
Definition hoursDiff (now timestamp : Z) : Q :=
  Qmake (now - timestamp) (Z.to_pos msPerHour).

(** [hoursDiff > expireHours] *)
Definition expiredAt (now timestamp : Z) : bool :=
  negb (Qle_bool (hoursDiff now timestamp) (inject_Z expireHours)).

Definition isExpired (timestamp : Z) : M bool :=
  let* now := Date_now in ret (expiredAt now timestamp).

(** The [forEach] of [cleanCache] over the keys taken before the loop. *)
Fixpoint deleteExpired (keys : list string) (c : cache) : M cache :=
  match keys with
  | [] => ret c
  | key :: keys' =>
      match obj_get key c with
      | None => throw TypeError
      | Some item =>
          let* expired := isExpired (timestamp item) in
          deleteExpired keys' (if expired then obj_delete key c else c)
      end
  end.

(** [cache[k].lru] inside the comparator; the keys sorted are keys of
    [c], so the lookup finds an entry. *)
Definition lru_of (c : cache) (k : string) : Z :=
  match obj_get k c with Some e => lru e | None => 0 end.

(** [keys.sort((a, b) => cache[a].lru - cache[b].lru)]: ascending, and
    stable as [Array.prototype.sort] is. *)
Fixpoint sort_insert (c : cache) (k : string) (sorted : list string) : list string :=
  match sorted with
  | [] => [k]
  | k' :: rest =>
      if lru_of c k <=? lru_of c k' then k :: k' :: rest
      else k' :: sort_insert c k rest
  end.

Fixpoint sort_by_lru (c : cache) (keys : list string) : list string :=
  match keys with
  | [] => []
  | k :: keys' => sort_insert c k (sort_by_lru c keys')
  end.

(** The order the comparator sorts by. *)
Definition lru_le (c : cache) : relation string := λ a b, lru_of c a ≤ lru_of c b.

(** The second half of [cleanCache]: drop the least recently used keys
    while more than [maxItems] are left. *)
Definition evictOldest (c : cache) : cache :=
  let keys := obj_keys c in
  if (maxItems <? length keys)%nat then
    let sorted := sort_by_lru c keys in
    foldl (λ c k, obj_delete k c) c (take (length keys - maxItems) sorted)
  else c.

(** The keys [evictOldest] deletes when the cache is over capacity. *)
Definition evictedKeys (c : cache) : list string :=
  take (length (obj_keys c) - maxItems) (sort_by_lru c (obj_keys c)).

Definition cleanCache (c : cache) : M cache :=
  let* c := deleteExpired (obj_keys c) c in
  ret (evictOldest c).

Definition updateLRU (c : cache) (key : string) : M cache :=
  match obj_get key c with
  | Some item =>
      let* now := Date_now in
      let c := obj_set key {| data := data item; timestamp := timestamp item; lru := now |} c in
      setItem c ;;; ret c
  | None => ret c
  end.

Definition get (v : variant) (query : string) : M jsval :=
  let* c := loadCache in
  let key := generateKey v query in
  match obj_get key c with
  | Some item =>
      let* expired := isExpired (timestamp item) in
      if expired then ret VNull
      else
        updateLRU c key ;;;
        ret (if arrayGuard v
             then (if isArray (data item) then data item else VArr [])
             else data item)
  | None => ret VNull
  end.

Definition set (v : variant) (query : string) (d : jsval) : M () :=
  let* c := loadCache in
  let key := generateKey v query in
  let* c := cleanCache c in
  let* created := Date_now in
  let* used := Date_now in
  let c := obj_set key {| data := d; timestamp := created; lru := used |} c in
  setItem c.

Definition clear : M () := removeItem.

Definition deleteKey (v : variant) (query : string) : M () :=
  let* c := loadCache in
  let key := generateKey v query in
  setItem (obj_delete key c).

End CacheManager.

(** ** MusicPlayer: validation, merge and search *)

Module MusicPlayer.

Notation "'do' x := r 'in' k" := (rbind r (λ x, k))
  (at level 10, x name, r at level 100, k at level 200) : js_scope.

(** The own properties of [qualityMap] in [mapQuality]. *)
Definition qualityMap : list (string * jsval) :=
  [("1", VStr "标准音质"); ("2", VStr "高品音质"); ("3", VStr "无损音质");
   ("4", VStr "Hi-Res"); ("5", VStr "高清环绕声"); ("6", VStr "沉浸环绕声");
   ("7", VStr "超清母带"); ("8", VStr "HQ高品质")].

(** [qualityMap[br] || '未知音质']: [br] is converted to a property key,
    which can throw; the key is looked up among the eight own properties
    and then among the members every object inherits, all of them
    truthy. *)
Definition mapQuality (E : engine) (br : jsval) : result jsval :=
  do key := ToString E br in
  match obj_get key qualityMap with
  | Some label => Ok label
  | None =>
      if bool_decide (key ∈ protoNames) then Ok (VBuiltin key)
      else Ok (VStr "未知音质")
  end.

Definition songAPI1 (E : engine) (song : jsval) : result jsval :=
  do n := get_prop song "n" in
  do song_title := get_prop song "song_title" in
  do title := ToString E song_title in
  do song_singer := get_prop song "song_singer" in
  do quality := get_prop song "quality" in
  Ok (VObj [("source", VStr "QQ音乐");
            ("id", n);
            ("title", VStr title);
            ("artist", song_singer);
            ("quality", or_else quality (VStr "标准音质"))]).

Definition songAPI23 (E : engine) (source : string) (song : jsval) : result jsval :=
  do n := get_prop song "n" in
  do raw_title := get_prop song "title" in
  do title := ToString E raw_title in
  do singer := get_prop song "singer" in
  do br := get_prop song "br" in
  do quality := mapQuality E (or_else br (VNum 1)) in
  Ok (VObj [("source", VStr source);
            ("id", n);
            ("title", VStr title);
            ("artist", singer);
            ("quality", quality)]).

Definition validateDataAPI1 (E : engine) (response : jsval) : result (list jsval) :=
  if negb (truthy response) then Ok []
  else
    do code := get_prop response "code" in
    if negb (strict_eq_num code 200) then Ok []
    else
      do d := get_prop response "data" in
      match d with
      | VArr songs => map_result (songAPI1 E) songs
      | _ => Ok []
      end.

Definition validateDataAPI2 (E : engine) (response : jsval) : result (list jsval) :=
  if negb (truthy response) then Ok []
  else
    do code := get_prop response "code" in
    if negb (strict_eq_num code 200) then Ok []
    else
      do d := get_prop response "data" in
      match d with
      | VArr songs => map_result (songAPI23 E "网易云") songs
      | _ => Ok []
      end.

Definition validateDataAPI3 (E : engine) (response : jsval) : result (list jsval) :=
  if negb (truthy response) then Ok []
  else
    do d := get_prop response "data" in
    match d with
    | VArr songs => map_result (songAPI23 E "酷狗音乐") songs
    | _ => Ok []
    end.

(** The validator of the single-source page, kept in [MusicPlayer.js]:
    it filters, and throws when nothing is left. *)
Definition validSong (song : jsval) : result bool :=
  do n := get_prop song "n" in
  if negb (truthy n) then Ok false
  else
    do song_title := get_prop song "song_title" in
    if negb (truthy song_title) then Ok false
    else
      do song_singer := get_prop song "song_singer" in
      Ok (truthy song_singer).

Fixpoint filter_result (f : jsval → result bool) (xs : list jsval) : result (list jsval) :=
  match xs with
  | [] => Ok []
  | x :: xs' =>
      do keep := f x in
      do ys := filter_result f xs' in
      Ok (if keep then x :: ys else ys)
  end.

Definition validateData (d : jsval) : result (list jsval) :=
  let inner := match d with
               | VUndef | VNull => Ok VUndef
               | _ => get_prop d "data"
               end in
  do inner := inner in
  match inner with
  | VArr songs =>
      do validData := filter_result validSong songs in
      match validData with
      | [] => Throw (Error "未找到有效歌曲数据")
      | _ :: _ => Ok validData
      end
  | _ => Throw (Error "无效的歌曲数据格式")
  end.

(** The key under which [mergeResults] remembers an item. *)
Definition mergeKey (E : engine) (item : jsval) : result string :=
  do t := get_prop item "title" in
  do title := ToString E (or_else t (VStr "")) in
  do a := get_prop item "artist" in
  do artist := ToString E (or_else a (VStr "")) in
  Ok (String_toLowerCase E title +:+ "|" +:+ String_toLowerCase E artist).

(** [data.filter(item => seen.has(key) ? false : seen.add(key))] with
    the set [seen] shared by all the calls of the callback. *)
Fixpoint filterSeen (E : engine) (seen : gset string) (items : list jsval)
  : result (list jsval) :=
  match items with
  | [] => Ok []
  | item :: rest =>
      do key := mergeKey E item in
      if decide (key ∈ seen) then filterSeen E seen rest
      else
        do kept := filterSeen E ({[key]} ∪ seen) rest in
        Ok (item :: kept)
  end.

Definition mergeResults (E : engine) (d : jsval) : result (list jsval) :=
  match d with
  | VArr items => filterSeen E ∅ items
  | _ => Ok []
  end.

(** How one request of [Promise.allSettled] ended. *)
Inductive settled : Type :=
| Fulfilled (value : jsval)
| Rejected.

(** What the page shows when [searchSongs] is done. *)
Inductive shown : Type :=
| CachedResults (d : jsval)
| Results (items : list jsval)
| ErrorToast (e : exn).

Definition lift {A} (r : result A) : M A := λ w, (r, w).

Definition validated (validate : jsval → result (list jsval)) (response : settled)
  : result (list jsval) :=
  match response with
  | Fulfilled value => validate value
  | Rejected => Ok []
  end.

(** [searchSongs] from the trimmed query on, with the outcomes of the
    three requests given; no other handler touches the cache while the
    requests are awaited. *)
Definition searchSongs (E : engine) (query : string)
    (api1Response api2Response api3Response : settled) : M shown :=
  try_catch
    (let* cachedData := CacheManager.get module_js query in
     if truthy cachedData then ret (CachedResults cachedData)
     else
       let* api1Data := lift (validated (validateDataAPI1 E) api1Response) in
       let* api2Data := lift (validated (validateDataAPI2 E) api2Response) in
       let* api3Data := lift (validated (validateDataAPI3 E) api3Response) in
       let* mergedData := lift (mergeResults E (VArr (api1Data ++ api2Data ++ api3Data))) in
       (if (0 <? length mergedData)%nat
        then CacheManager.set module_js query (VArr mergedData)
        else ret ()) ;;;
       ret (Results mergedData))
    (λ e, ret (ErrorToast e)).

End MusicPlayer.

(** ** Vocabulary of the statements *)

(** The cache object an operation starts from when [loadCache] returns. *)
Definition stored_cache (w : world) : cache :=
  match localStorage w with
  | Doc c => c
  | Absent | NotJSON _ => []
  end.

(** The stored text is absent or is a cache object (no key twice). *)
Definition wf_store (w : world) : Prop :=
  match localStorage w with
  | Absent => True
  | NotJSON _ => False
  | Doc c => NoDup (obj_keys c)
  end.

(** The world after [n] more readings of the clock. *)
Definition advance (w : world) (n : nat) : world :=
  {| localStorage := localStorage w; clock := clock w; tick := tick w + n |}.

(** The verdict of the expiry loop on key [k] with creation time [ts]:
    the loop takes one reading per key of [keys], starting with reading
    number [t], and judges [k] by the reading taken at its turn. *)
Fixpoint judged (clk : nat → Z) (t : nat) (keys : list string) (k : string) (ts : Z) : bool :=
  match keys with
  | [] => false
  | k' :: keys' =>
      if String.eqb k k' then CacheManager.expiredAt (clk t) ts
      else judged clk (S t) keys' k ts
  end.

(** The entries the expiry loop of [cleanCache] leaves in [c]. *)
Definition survivors (w : world) (c : cache) : cache :=
  filter (λ p, judged (clock w) (tick w) (obj_keys c) p.1 (timestamp p.2) = false) c.

(** The entry [set] writes when it starts in [w] with data [d]. *)
Definition freshEntry (w : world) (d : jsval) : entry :=
  let n := length (stored_cache w) in
  {| data := d;
     timestamp := clock w (tick w + n);
     lru := clock w (tick w + n + 1) |}.

(** The value [get] returns on a hit, by variant. *)
Definition hitValue (v : variant) (item : entry) : jsval :=
  if arrayGuard v
  then (if isArray (data item) then data item else VArr [])
  else data item.

(** Time to live in milliseconds. *)
Definition ttl : Z := CacheManager.expireHours * CacheManager.msPerHour.

(** The timestamp [set] writes when it starts in [w], and the reading a
    [get] that follows it takes for its expiry test. *)
Definition createdAt (w : world) : Z := clock w (tick w + length (stored_cache w)).
Definition readAfterSet (w : world) : Z := clock w (tick w + length (stored_cache w) + 2).

(** Sample data: [n] entries of the page cache, for the queries [q0],
    [q1], ..., the [i]-th created and last used at time [t + i]. *)
Definition sampleCache (n : nat) (t : Z) : cache :=
  (λ i : nat, (CacheManager.generateKey page ("q" +:+ pretty i),
               {| data := VArr [VNum (Z.of_nat i)];
                  timestamp := t + Z.of_nat i; lru := t + Z.of_nat i |})) <$> seq 0 n.

(** A world whose clock starts at [now] and moves one millisecond a reading. *)
Definition worldAt (s : stored) (now : Z) : world :=
  {| localStorage := s; clock := λ n, now + Z.of_nat n; tick := 0 |}.

(** A run of the page cache: [set] for the sixteen queries [q0] .. [q15],
    then [get] of [q0], then [set] for [q16]. *)
Definition setAll (queries : list string) : M () :=
  foldr (λ q rest, CacheManager.set page q (VArr [VStr q]) ;;; rest) (ret ()) queries.

Definition refreshScenario : M () :=
  setAll ((λ i : nat, "q" +:+ pretty i) <$> seq 0 16) ;;;
  CacheManager.get page "q0" ;;;
  CacheManager.set page "q16" (VArr [VStr "q16"]).

(** [v.name] on a value whose properties can be read. *)
Definition prop (v : jsval) (name : string) : jsval :=
  match get_prop v name with
  | Ok x => x
  | Throw _ => VUndef
  end.

(** [String(v)] where it returns. *)
Definition printed (E : engine) (v : jsval) : string :=
  match ToString E v with
  | Ok s => s
  | Throw _ => ""
  end.

(** The item has a key for [mergeResults]: its properties can be read
    and its title and artist can be printed. *)
Definition keyable (item : jsval) : bool :=
  negb (nullish item)
  && printable (or_else (prop item "title") (VStr ""))
  && printable (or_else (prop item "artist") (VStr "")).

(** The key [mergeResults] gives an item that has one. *)
Definition keyOf (E : engine) (item : jsval) : string :=
  String_toLowerCase E (printed E (or_else (prop item "title") (VStr ""))) +:+ "|"
  +:+ String_toLowerCase E (printed E (or_else (prop item "artist") (VStr ""))).

(** The merge in the words of the specification: going through the
    concatenation in order, an item is kept when no earlier item has its
    composite key, and dropped otherwise. *)
Fixpoint firstSeen (E : engine) (earlier items : list jsval) : list jsval :=
  match items with
  | [] => []
  | x :: rest =>
      if decide (keyOf E x ∈ keyOf E <$> earlier)
      then firstSeen E (earlier ++ [x]) rest
      else x :: firstSeen E (earlier ++ [x]) rest
  end.

(** The first item of a list that bears the key [k]. *)
Definition firstWithKey (E : engine) (k : string) (items : list jsval) : option jsval :=
  head (filter (λ y, keyOf E y = k) items).

(** The raw song can be turned into an item: it is not [null] or
    [undefined] and its title can be printed (for the second and third
    source, also its [br], or 1 in its place, as a property key). *)
Definition readable1 (song : jsval) : bool :=
  negb (nullish song) && printable (prop song "song_title").

Definition readable23 (song : jsval) : bool :=
  negb (nullish song) && printable (prop song "title")
  && printable (or_else (prop song "br") (VNum 1)).

(** The value of [qualityMap[key] || '未知音质'] for a property key: the
    label listed under it, or the member every object inherits under
    that name, or else the default label. *)
Definition qualityLabel (key : string) : jsval :=
  match obj_get key MusicPlayer.qualityMap with
  | Some label => label
  | None =>
      if bool_decide (key ∈ protoNames) then VBuiltin key else VStr "未知音质"
  end.

(** The label the second and third validators give a readable song. *)
Definition quality23 (E : engine) (song : jsval) : jsval :=
  qualityLabel (printed E (or_else (prop song "br") (VNum 1))).

(** The item each validator makes of one readable raw song. *)
Definition itemAPI1 (E : engine) (song : jsval) : jsval :=
  VObj [("source", VStr "QQ音乐");
        ("id", prop song "n");
        ("title", VStr (printed E (prop song "song_title")));
        ("artist", prop song "song_singer");
        ("quality", or_else (prop song "quality") (VStr "标准音质"))].

Definition itemAPI23 (E : engine) (source : string) (song : jsval) : jsval :=
  VObj [("source", VStr source);
        ("id", prop song "n");
        ("title", VStr (printed E (prop song "title")));
        ("artist", prop song "singer");
        ("quality", quality23 E song)].

(** The songs of a response that passes the shape check of a validator:
    a truthy response whose [data] is an array, with [code] 200 for the
    first and second source. *)
Definition accepted12 (response : jsval) : option (list jsval) :=
  if truthy response && strict_eq_num (prop response "code") 200
  then match prop response "data" with
       | VArr songs => Some songs
       | _ => None
       end
  else None.

Definition accepted3 (response : jsval) : option (list jsval) :=
  if truthy response
  then match prop response "data" with
       | VArr songs => Some songs
       | _ => None
       end
  else None.



(** The two items of the specification's example, as the validators of
    the first and of the second source produce them. *)
Definition songA : jsval :=
  VObj [("source", VStr "QQ音乐"); ("id", VNum 1); ("title", VStr "Song");
        ("artist", VStr "X"); ("quality", VStr "标准音质")].
Definition songB : jsval :=
  VObj [("source", VStr "网易云"); ("id", VNum 7); ("title", VStr "SONG");
        ("artist", VStr "x"); ("quality", VStr "标准音质")].

(** ** Runs of cache operations *)

(** One call on the cache, and a run of calls one after the other; a
    run collects what each call returned ([set], [deleteKey] and [clear]
    return [undefined]). *)
Inductive cacheOp : Type :=
| OpGet (query : string)
| OpSet (query : string) (d : jsval)
| OpDeleteKey (query : string)
| OpClear.

Definition runOp (v : variant) (op : cacheOp) : M jsval :=
  match op with
  | OpGet q => CacheManager.get v q
  | OpSet q d => CacheManager.set v q d ;;; ret VUndef
  | OpDeleteKey q => CacheManager.deleteKey v q ;;; ret VUndef
  | OpClear => CacheManager.clear ;;; ret VUndef
  end.

Fixpoint runOps (v : variant) (ops : list cacheOp) : M (list jsval) :=
  match ops with
  | [] => ret []
  | op :: ops' =>
      let* r := runOp v op in
      let* rs := runOps v ops' in
      ret (r :: rs)
  end.

(** * Properties *)

(** ** Objects as association lists *)

Section ObjectFacts.
Context {V : Type}.
Implicit Types (o : list (string * V)) (k : string) (v : V).

Lemma obj_keys_length o : length (obj_keys o) = length o.
Proof. apply length_map. Qed.

Lemma obj_delete_filter k o : obj_delete k o = filter (λ p, p.1 ≠ k) o.
Proof.
  induction o as [|[k' v'] o IH]; [done|]. simpl.
  destruct (String.eqb_spec k k') as [->|Hne].
  - rewrite filter_cons_False; [done|]. simpl. tauto.
  - rewrite filter_cons_True; [by rewrite IH|]. simpl. congruence.
Qed.

Lemma obj_get_delete_eq k o : obj_get k (obj_delete k o) = None.
Proof.
  induction o as [|[k' v'] o IH]; [done|]. simpl.
  destruct (String.eqb_spec k k') as [->|Hne]; [done|].
  simpl. by destruct (String.eqb_spec k k').
Qed.

Lemma obj_get_delete_ne k k' o : k ≠ k' → obj_get k' (obj_delete k o) = obj_get k' o.
Proof.
  intros Hne. induction o as [|[k1 v1] o IH]; [done|]. simpl.
  destruct (String.eqb_spec k k1) as [->|Hne1]; simpl.
  - destruct (String.eqb_spec k' k1); [congruence|done].
  - by rewrite IH.
Qed.

Lemma obj_get_set_eq k v o : obj_get k (obj_set k v o) = Some v.
Proof.
  induction o as [|[k' v'] o IH]; simpl.
  - by rewrite String.eqb_refl.
  - destruct (String.eqb_spec k k') as [->|Hne]; simpl.
    + by rewrite String.eqb_refl.
    + by destruct (String.eqb_spec k k').
Qed.

Lemma obj_get_set_ne k k' v o : k ≠ k' → obj_get k' (obj_set k v o) = obj_get k' o.
Proof.
  intros Hne. induction o as [|[k1 v1] o IH]; simpl.
  - by destruct (String.eqb_spec k' k); [congruence|].
  - destruct (String.eqb_spec k k1) as [->|Hne1]; simpl.
    + by destruct (String.eqb_spec k' k1); [congruence|].
    + by rewrite IH.
Qed.

Lemma obj_get_Some_elem_of k v o : obj_get k o = Some v → (k, v) ∈ o.
Proof.
  induction o as [|[k' v'] o IH]; [done|]. simpl.
  destruct (String.eqb_spec k k') as [->|Hne].
  - intros [= ->]. left.
  - intros H. right. by apply IH.
Qed.

Lemma obj_get_None_keys k o : obj_get k o = None ↔ k ∉ obj_keys o.
Proof.
  induction o as [|[k' v'] o IH]; simpl.
  - split; [intros _; apply not_elem_of_nil|done].
  - rewrite not_elem_of_cons. simpl.
    destruct (String.eqb_spec k k') as [->|Hne]; [|tauto].
    split; [done|]. intros [? _]. done.
Qed.

Lemma obj_get_is_Some_keys k o : is_Some (obj_get k o) ↔ k ∈ obj_keys o.
Proof.
  rewrite <-not_eq_None_Some, obj_get_None_keys.
  destruct (decide (k ∈ obj_keys o)); tauto.
Qed.

(** In an object, where no key repeats, a key has the value it is listed with. *)
Lemma obj_get_elem_of k v o : NoDup (obj_keys o) → (k, v) ∈ o → obj_get k o = Some v.
Proof.
  induction o as [|[k' v'] o IH]; simpl.
  - intros _ H. by apply elem_of_nil in H.
  - intros Hnd H. apply NoDup_cons in Hnd as [Hk' Hnd].
    apply elem_of_cons in H as [[= -> ->]|H].
    + by rewrite String.eqb_refl.
    + destruct (String.eqb_spec k k') as [->|Hne]; [|by apply IH].
      exfalso. apply Hk'. unfold obj_keys.
      change k' with (fst (k', v)). by apply list_elem_of_fmap_2.
Qed.

Lemma obj_keys_delete k o : obj_keys (obj_delete k o) = filter (λ k', k' ≠ k) (obj_keys o).
Proof.
  induction o as [|[k' v'] o IH]; [done|]. simpl.
  destruct (String.eqb_spec k k') as [->|Hne].
  - rewrite filter_cons_False; [done|]. tauto.
  - rewrite filter_cons_True; [|congruence]. simpl. by rewrite IH.
Qed.

Lemma obj_keys_delete_NoDup k o : NoDup (obj_keys o) → NoDup (obj_keys (obj_delete k o)).
Proof. rewrite obj_keys_delete. apply NoDup_filter. Qed.

Lemma obj_delete_absent k o : k ∉ obj_keys o → obj_delete k o = o.
Proof.
  induction o as [|[k' v'] o IH]; [done|]. simpl.
  rewrite not_elem_of_cons. intros [Hne Hk].
  destruct (String.eqb_spec k k') as [->|_]; [done|]. by rewrite IH.
Qed.

Lemma obj_delete_length k o :
  NoDup (obj_keys o) → k ∈ obj_keys o → S (length (obj_delete k o)) = length o.
Proof.
  induction o as [|[k' v'] o IH]; simpl.
  - intros _ H. by apply elem_of_nil in H.
  - intros Hnd H. apply NoDup_cons in Hnd as [Hk' Hnd].
    destruct (String.eqb_spec k k') as [->|Hne].
    + by rewrite obj_delete_absent.
    + simpl. f_equal. apply IH; [done|].
      apply elem_of_cons in H as [?|?]; [congruence|done].
Qed.

Lemma obj_keys_set k v o :
  obj_keys (obj_set k v o)
  = match obj_get k o with Some _ => obj_keys o | None => obj_keys o ++ [k] end.
Proof.
  induction o as [|[k' v'] o IH]; [done|]. simpl.
  destruct (String.eqb_spec k k') as [->|Hne]; [done|].
  simpl. rewrite IH. by destruct (obj_get k o).
Qed.

Lemma obj_set_length k v o :
  length (obj_set k v o)
  = match obj_get k o with Some _ => length o | None => S (length o) end.
Proof.
  induction o as [|[k' v'] o IH]; [done|]. simpl.
  destruct (String.eqb_spec k k') as [->|Hne]; [done|].
  simpl. rewrite IH. by destruct (obj_get k o).
Qed.

Lemma obj_keys_set_NoDup k v o : NoDup (obj_keys o) → NoDup (obj_keys (obj_set k v o)).
Proof.
  intros Hnd. rewrite obj_keys_set. destruct (obj_get k o) eqn:Hk; [done|].
  apply NoDup_app. split; [done|]. split; [|apply NoDup_singleton].
  intros x Hx Hx'. apply list_elem_of_singleton in Hx' as ->.
  by apply obj_get_None_keys in Hk.
Qed.
End ObjectFacts.

(** ** The capacity phase of [cleanCache] *)

Section Eviction.
Import CacheManager.
Implicit Types (c : cache) (k : string) (ks : list string).

Lemma sort_insert_perm c k ks : sort_insert c k ks ≡ₚ k :: ks.
Proof.
  induction ks as [|k' ks IH]; [done|]. simpl.
  destruct (lru_of c k <=? lru_of c k'); [done|].
  rewrite IH. apply Permutation_swap.
Qed.

Lemma sort_by_lru_perm c ks : sort_by_lru c ks ≡ₚ ks.
Proof.
  induction ks as [|k ks IH]; [done|]. simpl.
  by rewrite sort_insert_perm, IH.
Qed.

Lemma sort_insert_sorted c k ks :
  StronglySorted (lru_le c) ks → StronglySorted (lru_le c) (sort_insert c k ks).
Proof.
  induction 1 as [|k' ks Hs IH Hall]; simpl.
  - repeat constructor.
  - destruct (Z.leb_spec (lru_of c k) (lru_of c k')) as [Hle|Hgt].
    + constructor; [by constructor|].
      constructor; [done|].
      eapply Forall_impl; [exact Hall|]. unfold lru_le. intros; simpl in *; lia.
    + constructor; [done|].
      rewrite sort_insert_perm. constructor; [|done]. unfold lru_le. lia.
Qed.

Lemma sort_by_lru_sorted c ks : StronglySorted (lru_le c) (sort_by_lru c ks).
Proof.
  induction ks as [|k ks IH]; simpl; [constructor|by apply sort_insert_sorted].
Qed.

Lemma filter_all {A} (P : A → Prop) `{!∀ x, Decision (P x)} (l : list A) :
  (∀ x, x ∈ l → P x) → filter P l = l.
Proof.
  induction l as [|x l IH]; intros Hall; [done|].
  rewrite filter_cons_True by (apply Hall; left).
  f_equal. apply IH. intros y Hy. apply Hall. by right.
Qed.

Lemma filter_none {A} (P : A → Prop) `{!∀ x, Decision (P x)} (l : list A) :
  (∀ x, x ∈ l → ¬ P x) → filter P l = [].
Proof.
  induction l as [|x l IH]; intros Hall; [done|].
  rewrite filter_cons_False by (apply Hall; left).
  apply IH. intros y Hy. apply Hall. by right.
Qed.

Lemma foldl_delete_filter ks c :
  foldl (λ c k, obj_delete k c) c ks = filter (λ p, p.1 ∉ ks) c.
Proof.
  revert c. induction ks as [|k ks IH]; intros c; simpl.
  - symmetry. apply filter_all. intros x _. apply not_elem_of_nil.
  - rewrite IH, obj_delete_filter, list_filter_filter.
    apply list_filter_iff. intros [k' e]; simpl.
    rewrite not_elem_of_cons. tauto.
Qed.

Lemma obj_keys_filter (P : string → Prop) `{!∀ k, Decision (P k)} c :
  obj_keys (filter (λ p, P p.1) c) = filter P (obj_keys c).
Proof.
  induction c as [|[k e] c IH]; [done|]. simpl.
  destruct (decide (P k)) as [HP|HP].
  - rewrite !filter_cons_True by done. simpl. by rewrite IH.
  - by rewrite !filter_cons_False.
Qed.

Lemma filter_not_in_prefix (l1 l2 : list string) :
  NoDup (l1 ++ l2) → filter (λ x, x ∉ l1) (l1 ++ l2) = l2.
Proof.
  intros (_ & Hdisj & _)%NoDup_app. rewrite filter_app.
  rewrite filter_none, filter_all; [done| |].
  - intros x Hx Hx'. exact (Hdisj x Hx' Hx).
  - intros x Hx Hx'. exact (Hx' Hx).
Qed.

Lemma evictOldest_small c : (length c ≤ maxItems)%nat → evictOldest c = c.
Proof.
  intros Hle. unfold evictOldest. rewrite obj_keys_length.
  destruct (Nat.ltb_spec maxItems (length c)); [lia|done].
Qed.

Lemma evictOldest_filter c :
  (maxItems < length c)%nat → evictOldest c = filter (λ p, p.1 ∉ evictedKeys c) c.
Proof.
  intros Hlt. unfold evictOldest, evictedKeys. rewrite obj_keys_length.
  destruct (Nat.ltb_spec maxItems (length c)); [|lia].
  apply foldl_delete_filter.
Qed.

Lemma evictOldest_sublist c : evictOldest c `sublist_of` c.
Proof.
  destruct (decide (maxItems < length c)%nat).
  - rewrite evictOldest_filter by done. apply sublist_filter.
  - by rewrite evictOldest_small by lia.
Qed.

Lemma evictOldest_keys c :
  NoDup (obj_keys c) → (maxItems < length c)%nat →
  obj_keys (evictOldest c)
  ≡ₚ drop (length c - maxItems) (sort_by_lru c (obj_keys c)).
Proof.
  intros Hnd Hlt. rewrite evictOldest_filter by done.
  pose proof (obj_keys_filter (λ k, k ∉ evictedKeys c) c) as Hk.
  cbv beta in Hk. rewrite Hk. clear Hk.
  unfold evictedKeys. rewrite obj_keys_length.
  set (n := (length c - maxItems)%nat). set (s := sort_by_lru c (obj_keys c)).
  assert (obj_keys c ≡ₚ s) as Hp by (symmetry; apply sort_by_lru_perm).
  rewrite Hp. apply reflexive_eq.
  pose proof (filter_not_in_prefix (take n s) (drop n s)) as Hf.
  rewrite take_drop in Hf. apply Hf. by rewrite <-Hp.
Qed.

Lemma evictOldest_length c :
  NoDup (obj_keys c) → (maxItems < length c)%nat → length (evictOldest c) = maxItems.
Proof.
  intros Hnd Hlt.
  rewrite <-obj_keys_length, evictOldest_keys by done.
  rewrite length_drop, (Permutation_length (sort_by_lru_perm c (obj_keys c))).
  rewrite obj_keys_length. unfold maxItems in *. lia.
Qed.

Lemma evictOldest_length_le c :
  NoDup (obj_keys c) → (length (evictOldest c) ≤ maxItems)%nat.
Proof.
  intros Hnd. destruct (decide (maxItems < length c)%nat).
  - by rewrite evictOldest_length.
  - rewrite evictOldest_small; lia.
Qed.

Lemma evictOldest_NoDup c : NoDup (obj_keys c) → NoDup (obj_keys (evictOldest c)).
Proof.
  intros Hnd. apply (sublist_NoDup _ (obj_keys c)); [done|].
  apply (fmap_sublist fst), evictOldest_sublist.
Qed.

(** Every key that goes was used no later than every key that stays. *)
Lemma evictOldest_order c kr kk :
  NoDup (obj_keys c) → (maxItems < length c)%nat →
  kr ∈ obj_keys c → kr ∉ obj_keys (evictOldest c) → kk ∈ obj_keys (evictOldest c) →
  lru_of c kr ≤ lru_of c kk.
Proof.
  intros Hnd Hlt Hkr Hgone Hkept.
  rewrite evictOldest_keys in Hgone, Hkept by done.
  set (n := (length c - maxItems)%nat) in *.
  set (s := sort_by_lru c (obj_keys c)) in *.
  assert (kr ∈ take n s) as Hr.
  { assert (kr ∈ s) as Hs by (unfold s; by rewrite sort_by_lru_perm).
    rewrite <-(take_drop n s) in Hs. apply elem_of_app in Hs as [?|?]; done. }
  apply (StronglySorted_app_1_elem_of (lru_le c) (take n s) (drop n s)); [|done..].
  rewrite take_drop. apply sort_by_lru_sorted.
Qed.
End Eviction.

(** ** The expiry phase of [cleanCache] *)

Section Expiry.
Import CacheManager.
Implicit Types (c : cache) (k : string) (ks : list string) (w : world).

Lemma ttl_ms : ttl = 7200000.
Proof. reflexivity. Qed.

Lemma expiredAt_false now ts : expiredAt now ts = false ↔ now - ts ≤ ttl.
Proof.
  unfold expiredAt. rewrite negb_false_iff, Qle_bool_iff.
  unfold Qle, hoursDiff. rewrite ttl_ms. cbn [Qnum Qden inject_Z].
  change (Z.pos (Z.to_pos msPerHour)) with 3600000.
  change expireHours with 2. lia.
Qed.

Lemma expiredAt_spec now ts : expiredAt now ts = true ↔ ttl < now - ts.
Proof.
  pose proof (expiredAt_false now ts) as Hf.
  destruct (expiredAt now ts) eqn:E; split; intros H; try done.
  - destruct (decide (now - ts ≤ ttl)) as [Hle|Hgt]; [|lia].
    apply Hf in Hle. congruence.
  - assert (now - ts ≤ ttl) by by apply Hf. lia.
Qed.

Lemma advance_0 w : advance w 0 = w.
Proof. destruct w. unfold advance. simpl. by rewrite Nat.add_0_r. Qed.

Lemma judged_not_in clk t ks k ts : k ∉ ks → judged clk t ks k ts = false.
Proof.
  revert t. induction ks as [|k' ks IH]; intros t Hk; [done|]. simpl.
  apply not_elem_of_cons in Hk as [Hne Hk].
  destruct (String.eqb_spec k k'); [done|]. by apply IH.
Qed.

(** A key is judged by the reading taken at its position in the loop. *)
Lemma judged_lookup clk t ks k ts (i : nat) :
  NoDup ks → ks !! i = Some k →
  judged clk t ks k ts = expiredAt (clk (t + i)%nat) ts.
Proof.
  revert t i. induction ks as [|k' ks IH]; intros t i Hnd Hi; [done|].
  apply NoDup_cons in Hnd as [Hk' Hnd]. simpl. destruct i as [|i]; simpl in Hi.
  - injection Hi as ->. by rewrite String.eqb_refl, Nat.add_0_r.
  - destruct (String.eqb_spec k k') as [->|Hne].
    + exfalso. apply Hk'. by eapply list_elem_of_lookup_2.
    + rewrite (IH (S t) i) by done. do 2 f_equal. lia.
Qed.

Lemma filter_ext_elem_of {A} (P Q : A → Prop)
    `{!∀ x, Decision (P x)} `{!∀ x, Decision (Q x)} (l : list A) :
  (∀ x, x ∈ l → (P x ↔ Q x)) → filter P l = filter Q l.
Proof.
  induction l as [|x l IH]; intros Hall; [done|].
  assert (filter P l = filter Q l) as Hl.
  { apply IH. intros y Hy. apply Hall. by right. }
  destruct (decide (P x)) as [HP|HP].
  - rewrite !filter_cons_True; [by rewrite Hl| |done]. apply Hall; [left|done].
  - rewrite !filter_cons_False; [done| |done]. intros HQ. apply HP, Hall; [left|done].
Qed.

Lemma deleteExpired_run ks : ∀ c w,
  NoDup (obj_keys c) → NoDup ks → ks ⊆ obj_keys c →
  deleteExpired ks c w
  = (Ok (filter (λ p, judged (clock w) (tick w) ks p.1 (timestamp p.2) = false) c),
     advance w (length ks)).
Proof.
  induction ks as [|k0 ks IH]; intros c w Hc Hks Hsub.
  - simpl. unfold ret. rewrite advance_0. f_equal. f_equal.
    symmetry. by apply filter_all.
  - apply NoDup_cons in Hks as [Hk0 Hks].
    assert (k0 ∈ obj_keys c) as Hin by (apply Hsub; left).
    destruct (obj_get k0 c) as [item|] eqn:Hitem;
      [|by apply obj_get_None_keys in Hitem].
    simpl. rewrite Hitem. unfold bind, isExpired, bind, Date_now, ret. simpl.
    set (expired := expiredAt (clock w (tick w)) (timestamp item)).
    rewrite IH; [| |done|]; simpl.
    + f_equal.
      * f_equal. destruct expired eqn:Hexp.
        -- rewrite obj_delete_filter, list_filter_filter.
           apply filter_ext_elem_of. intros [k e] Hp; simpl.
           destruct (String.eqb_spec k k0) as [->|Hne].
           ++ rewrite (obj_get_elem_of _ _ _ Hc Hp) in Hitem. injection Hitem as ->.
              fold expired. rewrite Hexp. split; [tauto|done].
           ++ tauto.
        -- apply filter_ext_elem_of. intros [k e] Hp; simpl.
           destruct (String.eqb_spec k k0) as [->|Hne]; [|done].
           rewrite (obj_get_elem_of _ _ _ Hc Hp) in Hitem. injection Hitem as ->.
           fold expired. rewrite Hexp, judged_not_in by done. done.
      * unfold advance. simpl. f_equal. lia.
    + destruct expired; [by apply obj_keys_delete_NoDup|done].
    + intros k Hk. assert (k ≠ k0) by (intros ->; done).
      destruct expired; [|apply Hsub; by right].
      rewrite obj_keys_delete. apply list_elem_of_filter. split; [done|].
      apply Hsub. by right.
Qed.

Lemma survivors_sublist w c : survivors w c `sublist_of` c.
Proof. apply sublist_filter. Qed.

Lemma survivors_NoDup w c : NoDup (obj_keys c) → NoDup (obj_keys (survivors w c)).
Proof.
  intros Hnd. apply (sublist_NoDup _ (obj_keys c)); [done|].
  apply (fmap_sublist fst), survivors_sublist.
Qed.

Lemma cleanCache_run c w :
  NoDup (obj_keys c) →
  cleanCache c w = (Ok (evictOldest (survivors w c)), advance w (length c)).
Proof.
  intros Hnd. unfold cleanCache, bind.
  rewrite deleteExpired_run by done. by rewrite obj_keys_length.
Qed.
End Expiry.

(** ** What the JSON text keeps *)

Section JSONFacts.
Implicit Types (c : cache) (k : string) (v : jsval).

Lemma jsval_nested_ind (P : jsval → Prop) :
  P VUndef → P VNull → (∀ b, P (VBool b)) → (∀ n, P (VNum n)) → (∀ s, P (VStr s)) →
  (∀ l, Forall P l → P (VArr l)) →
  (∀ ps, Forall (λ p, P p.2) ps → P (VObj ps)) →
  (∀ name, P (VBuiltin name)) →
  ∀ v, P v.
Proof.
  intros HU HN HB HZ HS HA HO HF. fix IH 1.
  intros [| |b|n|s|l|ps|name];
    [exact HU|exact HN|apply HB|apply HZ|apply HS| | |apply HF].
  - apply HA. induction l as [|x l IHl]; constructor; [apply IH|exact IHl].
  - apply HO. induction ps as [|[k x] ps IHps]; constructor; [apply IH|exact IHps].
Qed.





Lemma obj_get_JSON_cache k c : obj_get k (JSON_cache c) = JSON_entry <$> obj_get k c.
Proof.
  induction c as [|[k' e] c IH]; [done|]. simpl.
  by destruct (String.eqb k k').
Qed.

Lemma obj_keys_JSON_cache c : obj_keys (JSON_cache c) = obj_keys c.
Proof. induction c as [|[k' e] c IH]; [done|]. simpl. by rewrite IH. Qed.

Lemma JSON_cache_length c : length (JSON_cache c) = length c.
Proof. apply length_map. Qed.
End JSONFacts.

(** ** What [get], [set] and [deleteKey] compute *)

Section Runs.
Import CacheManager.
Implicit Types (c : cache) (k q : string) (w : world) (v : variant) (d : jsval).

Lemma wf_store_NoDup w : wf_store w → NoDup (obj_keys (stored_cache w)).
Proof.
  unfold wf_store, stored_cache. destruct (localStorage w); [constructor|done|done].
Qed.

Lemma loadCache_run w : wf_store w → loadCache w = (Ok (stored_cache w), w).
Proof.
  unfold wf_store, loadCache, stored_cache. by destruct (localStorage w).
Qed.

Lemma loadCache_corrupted w raw :
  localStorage w = NotJSON raw → loadCache w = (Throw SyntaxError, w).
Proof. unfold loadCache. by intros ->. Qed.

(** The cache object [set] serialises. *)
Lemma set_run v q d w :
  wf_store w →
  set v q d w
  = (Ok (),
     {| localStorage :=
          Doc (JSON_cache (obj_set (generateKey v q) (freshEntry w d)
                             (evictOldest (survivors w (stored_cache w)))));
        clock := clock w;
        tick := tick w + length (stored_cache w) + 2 |}).
Proof.
  intros Hwf. unfold set, bind at 1. rewrite loadCache_run by done.
  unfold bind at 1. rewrite cleanCache_run by by apply wf_store_NoDup.
  unfold bind, Date_now, setItem, freshEntry, advance. simpl.
  repeat f_equal; lia.
Qed.

Lemma get_missing v q w :
  wf_store w → obj_get (generateKey v q) (stored_cache w) = None →
  get v q w = (Ok VNull, w).
Proof.
  intros Hwf Hk. unfold get, bind. rewrite loadCache_run by done. by rewrite Hk.
Qed.

Lemma get_expired v q w item :
  wf_store w → obj_get (generateKey v q) (stored_cache w) = Some item →
  expiredAt (clock w (tick w)) (timestamp item) = true →
  get v q w = (Ok VNull, advance w 1).
Proof.
  intros Hwf Hk Hexp. unfold get, bind at 1. rewrite loadCache_run by done.
  rewrite Hk. unfold bind, isExpired, bind, Date_now, ret. simpl. rewrite Hexp.
  unfold advance. do 2 f_equal. lia.
Qed.

Lemma get_hit v q w item :
  wf_store w → obj_get (generateKey v q) (stored_cache w) = Some item →
  expiredAt (clock w (tick w)) (timestamp item) = false →
  get v q w
  = (Ok (hitValue v item),
     {| localStorage :=
          Doc (JSON_cache
                 (obj_set (generateKey v q)
                    {| data := data item; timestamp := timestamp item;
                       lru := clock w (S (tick w)) |}
                    (stored_cache w)));
        clock := clock w;
        tick := tick w + 2 |}).
Proof.
  intros Hwf Hk Hexp. unfold get, bind at 1. rewrite loadCache_run by done.
  rewrite Hk. unfold bind, isExpired, bind, Date_now, ret. simpl. rewrite Hexp.
  unfold updateLRU. simpl. rewrite Hk. unfold bind, Date_now, setItem, ret. simpl.
  unfold hitValue. repeat f_equal; lia.
Qed.

Lemma deleteKey_run v q w :
  wf_store w →
  deleteKey v q w
  = (Ok (),
     {| localStorage := Doc (JSON_cache (obj_delete (generateKey v q) (stored_cache w)));
        clock := clock w; tick := tick w |}).
Proof.
  intros Hwf. unfold deleteKey, bind. by rewrite loadCache_run.
Qed.
End Runs.

(** ** The size of the store after [set] (C1) *)

Section Capacity.
Import CacheManager.

(** After [set] the store holds at most one entry more than [maxItems]:
    the sweep runs before the new entry is added. *)
Lemma set_length_bound v q d w :
  wf_store w →
  ∃ w', set v q d w = (Ok (), w') ∧ (length (stored_cache w') ≤ maxItems + 1)%nat.
Proof.
  intros Hwf. rewrite set_run by done. eexists; split; [done|].
  unfold stored_cache at 1. simpl. rewrite JSON_cache_length, obj_set_length.
  pose proof (evictOldest_length_le (survivors w (stored_cache w))
                (survivors_NoDup _ _ (wf_store_NoDup _ Hwf))).
  unfold maxItems in *. destruct (obj_get _ _); lia.
Qed.

(** C1, at the input where the code departs from it: a store of
    fifteen live entries and a [set] for a sixteenth query.  The sweep
    finds nothing to remove, the new entry is added, and the store
    written holds sixteen entries, one more than [maxItems]. *)
Theorem set_exceeds_maxItems :
  let w := worldAt (Doc (sampleCache 15 0)) 1000 in
  wf_store w ∧ length (stored_cache w) = maxItems ∧
  ∃ w', set page "new" (VArr []) w = (Ok (), w') ∧
        length (stored_cache w') = 16%nat.
Proof.
  intros w.
  assert (wf_store w) as Hwf by (apply (bool_decide_unpack _); by vm_compute).
  split; [exact Hwf|]. split; [reflexivity|].
  rewrite set_run by done. eexists. split; [reflexivity|]. by vm_compute.
Qed.
End Capacity.

(** ** Reading back what was written (C2) *)

Section RoundTrip.
Import CacheManager.

(** [get] right after [set] returns the data as the JSON text keeps it. *)
Lemma set_then_get_JSON v q d w :
  wf_store w → readAfterSet w - createdAt w ≤ ttl →
  ∃ w1 w2, set v q d w = (Ok (), w1) ∧
           get v q w1 = (Ok (hitValue v (JSON_entry (freshEntry w d))), w2).
Proof.
  intros Hwf Httl. rewrite set_run by done.
  eexists _, _. split; [done|].
  apply get_hit.
  - unfold wf_store. simpl. rewrite obj_keys_JSON_cache.
    apply obj_keys_set_NoDup, evictOldest_NoDup, survivors_NoDup.
    by apply wf_store_NoDup.
  - unfold stored_cache at 1. simpl.
    by rewrite obj_get_JSON_cache, obj_get_set_eq.
  - apply expiredAt_false. simpl. exact Httl.
Qed.



End RoundTrip.

(** ** Expired entries (C3) and the strict comparison (C10) *)

Section ExpiredEntries.
Import CacheManager.
Implicit Types (c : cache) (k q : string) (w : world) (v : variant) (d : jsval) (e : entry).

Lemma obj_keys_lookup c (i : nat) k e : c !! i = Some (k, e) → obj_keys c !! i = Some k.
Proof.
  intros Hi. unfold obj_keys. change (map fst c) with (fst <$> c).
  by rewrite list_lookup_fmap, Hi.
Qed.

Lemma elem_of_obj_keys c k : k ∈ obj_keys c ↔ ∃ e, (k, e) ∈ c.
Proof.
  unfold obj_keys. change (map fst c) with (fst <$> c).
  rewrite list_elem_of_fmap. split.
  - intros ([k' e] & -> & Hin). by exists e.
  - intros [e Hin]. by exists (k, e).
Qed.

(** An entry stays in the expiry phase exactly when the reading taken at
    its turn does not find it expired. *)
Lemma elem_of_survivors w c (i : nat) k e :
  NoDup (obj_keys c) → c !! i = Some (k, e) →
  (k, e) ∈ survivors w c ↔ expiredAt (clock w (tick w + i)%nat) (timestamp e) = false.
Proof.
  intros Hnd Hi. unfold survivors. rewrite list_elem_of_filter. simpl.
  rewrite (judged_lookup _ _ _ _ _ i Hnd (obj_keys_lookup _ _ _ _ Hi)).
  split; [tauto|]. intros Hexp. split; [done|]. by eapply list_elem_of_lookup_2.
Qed.

Lemma survivors_expired_gone w c (i : nat) k e :
  NoDup (obj_keys c) → c !! i = Some (k, e) →
  expiredAt (clock w (tick w + i)%nat) (timestamp e) = true →
  k ∉ obj_keys (survivors w c).
Proof.
  intros Hnd Hi Hexp [e' Hin]%elem_of_obj_keys.
  assert ((k, e') ∈ c) as Hc by (eapply elem_of_sublist, survivors_sublist; done).
  assert ((k, e) ∈ c) as Hc' by by eapply list_elem_of_lookup_2.
  apply (obj_get_elem_of _ _ _ Hnd) in Hc, Hc'.
  assert (e' = e) as -> by congruence.
  apply (elem_of_survivors w c i k e Hnd Hi) in Hin. congruence.
Qed.

Lemma sublist_obj_get_None (c c' : cache) k :
  c' `sublist_of` c → k ∉ obj_keys c → obj_get k c' = None.
Proof.
  intros Hsub Hk. apply obj_get_None_keys. intros Hk'. apply Hk.
  eapply elem_of_sublist; [exact Hk'|]. by apply (fmap_sublist fst).
Qed.

(** C3, against the claim: [get] observes an entry older than the time to
    live, answers [null], and leaves the entry in the store. *)
Lemma get_keeps_expired_entry :
  let e := {| data := VArr [VNum 1]; timestamp := 0; lru := 0 |} in
  let w := worldAt (Doc [("search_a", e)]) (ttl + 1) in
  obj_get (generateKey page "a") (stored_cache w) = Some e ∧
  ttl < clock w (tick w) - timestamp e ∧
  ∃ w', get page "a" w = (Ok VNull, w') ∧
        obj_get (generateKey page "a") (stored_cache w') = Some e.
Proof.
  intros e w.
  assert (wf_store w) as Hwf by (apply (bool_decide_unpack _); by vm_compute).
  assert (obj_get (generateKey page "a") (stored_cache w) = Some e) as Hget
    by reflexivity.
  split; [exact Hget|]. split; [reflexivity|].
  exists (advance w 1). split; [|exact Hget].
  apply (get_expired page "a" w e Hwf Hget). by vm_compute.
Qed.

(** C3, as the code has it: an entry found older than the time to live by
    the reading [set] takes for it is gone from the store [set] writes
    (its key is absent, or holds the new entry when it is the key being
    set); [get] on such an entry answers [null] and does not touch the
    store, so the entry is still there afterwards. *)
Theorem expired_removed_by_set_kept_by_get v q d w (i : nat) k e :
  wf_store w → stored_cache w !! i = Some (k, e) →
  (ttl < clock w (tick w + i) - timestamp e →
   ∃ w', set v q d w = (Ok (), w') ∧
         obj_get k (stored_cache w')
         = if decide (k = generateKey v q)
           then Some (JSON_entry (freshEntry w d)) else None)
  ∧ (k = generateKey v q → ttl < clock w (tick w) - timestamp e →
     get v q w = (Ok VNull, advance w 1) ∧
     obj_get k (stored_cache (advance w 1)) = Some e).
Proof.
  intros Hwf Hi. pose proof (wf_store_NoDup w Hwf) as Hnd. split.
  - intros Hexp%expiredAt_spec. rewrite set_run by done.
    eexists. split; [done|]. unfold stored_cache at 1. simpl.
    rewrite obj_get_JSON_cache. case_decide as Hk.
    + subst k. by rewrite obj_get_set_eq.
    + rewrite obj_get_set_ne by done.
      rewrite (sublist_obj_get_None (survivors w (stored_cache w))); [done| |].
      * apply evictOldest_sublist.
      * by eapply survivors_expired_gone.
  - intros -> Hexp%expiredAt_spec.
    assert (obj_get (generateKey v q) (stored_cache w) = Some e) as Hget.
    { apply obj_get_elem_of; [done|]. by eapply list_elem_of_lookup_2. }
    split; [exact (get_expired v q w e Hwf Hget Hexp)|exact Hget].
Qed.

Lemma expired_removed_by_set_kept_by_get_witness :
  let e := {| data := VArr [VNum 1]; timestamp := 0; lru := 0 |} in
  let w := worldAt (Doc [("search_a", e)]) (ttl + 1) in
  wf_store w ∧ stored_cache w !! 0%nat = Some ("search_a", e) ∧
  ttl < clock w (tick w + 0) - timestamp e ∧
  "search_a" = generateKey page "a" ∧
  (∃ w', set page "b" (VArr []) w = (Ok (), w') ∧
         obj_get "search_a" (stored_cache w') = None) ∧
  get page "a" w = (Ok VNull, advance w 1) ∧
  obj_get "search_a" (stored_cache (advance w 1)) = Some e.
Proof.
  intros e w.
  assert (wf_store w) as Hwf by (apply (bool_decide_unpack _); by vm_compute).
  assert (stored_cache w !! 0%nat = Some ("search_a", e)) as Hi by reflexivity.
  assert (ttl < clock w (tick w + 0) - timestamp e) as Hexp by reflexivity.
  destruct (expired_removed_by_set_kept_by_get page "b" (VArr []) w 0 "search_a" e Hwf Hi)
    as [Hset _].
  destruct (expired_removed_by_set_kept_by_get page "a" (VArr []) w 0 "search_a" e Hwf Hi)
    as [_ Hget].
  split; [exact Hwf|]. split; [exact Hi|]. split; [exact Hexp|].
  split; [reflexivity|]. split; [exact (Hset Hexp)|].
  exact (Hget eq_refl Hexp).
Defined.

(** C10: the expiry test is strict.  An entry whose age is exactly the
    time to live (two hours, 7200000 ms) at the reading that judges it
    is not expired: [get] returns its data, the expiry phase of the
    sweep keeps it, and a sweep of a store within capacity returns it.
    Only an age above the time to live counts as expired. *)
Theorem expiry_is_strict v q w (i : nat) k e :
  wf_store w → stored_cache w !! i = Some (k, e) →
  ttl = 2 * 60 * 60 * 1000
  ∧ (∀ now ts, expiredAt now ts = true ↔ ttl < now - ts)
  ∧ (k = generateKey v q → clock w (tick w) - timestamp e = ttl →
     arrayGuard v = false ∨ isArray (data e) = true →
     ∃ w', get v q w = (Ok (data e), w'))
  ∧ (clock w (tick w + i) - timestamp e = ttl →
     (k, e) ∈ survivors w (stored_cache w)
     ∧ ((length (stored_cache w) ≤ maxItems)%nat →
        ∃ c', cleanCache (stored_cache w) w = (Ok c', advance w (length (stored_cache w)))
              ∧ (k, e) ∈ c')).
Proof.
  intros Hwf Hi. pose proof (wf_store_NoDup w Hwf) as Hnd.
  split; [reflexivity|]. split; [apply expiredAt_spec|]. split.
  - intros -> Hage Hdata.
    assert (obj_get (generateKey v q) (stored_cache w) = Some e) as Hget.
    { apply obj_get_elem_of; [done|]. by eapply list_elem_of_lookup_2. }
    rewrite (get_hit v q w e Hwf Hget) by (apply expiredAt_false; lia).
    eexists. do 2 f_equal. unfold hitValue.
    destruct Hdata as [->| ->]; [done|by destruct (arrayGuard v)].
  - intros Hage.
    assert ((k, e) ∈ survivors w (stored_cache w)) as Hin.
    { apply (elem_of_survivors w _ i k e Hnd Hi), expiredAt_false. lia. }
    split; [done|]. intros Hcap. rewrite cleanCache_run by done.
    eexists. split; [done|]. rewrite evictOldest_small; [done|].
    etrans; [apply sublist_length, survivors_sublist|done].
Qed.

Lemma expiry_is_strict_witness :
  let e := {| data := VArr [VNum 1]; timestamp := 0; lru := 0 |} in
  let w := {| localStorage := Doc [("search_a", e)]; clock := λ _, ttl; tick := 0 |} in
  wf_store w ∧ stored_cache w !! 0%nat = Some ("search_a", e) ∧
  clock w (tick w) - timestamp e = ttl ∧
  (∃ w', get page "a" w = (Ok (VArr [VNum 1]), w')) ∧
  ("search_a", e) ∈ survivors w (stored_cache w).
Proof.
  intros e w.
  assert (wf_store w) as Hwf by (apply (bool_decide_unpack _); by vm_compute).
  assert (stored_cache w !! 0%nat = Some ("search_a", e)) as Hi by reflexivity.
  destruct (expiry_is_strict page "a" w 0 "search_a" e Hwf Hi) as (_ & _ & Hget & Hsweep).
  split; [exact Hwf|]. split; [exact Hi|]. split; [reflexivity|].
  split; [exact (Hget eq_refl eq_refl (or_introl eq_refl))|].
  exact (proj1 (Hsweep eq_refl)).
Defined.
End ExpiredEntries.

(** ** A stored text that is not JSON (C5) *)

Section MalformedStore.
Import CacheManager.
Implicit Types (q : string) (w : world) (v : variant) (d : jsval).

(** C5, against the claim: with a stored text that is not JSON, [get]
    and [set] end in the SyntaxError of [JSON.parse]. *)
Lemma get_set_throw_on_malformed_store :
  let w := worldAt (NotJSON "{oops") 0 in
  get page "song" w = (Throw SyntaxError, w) ∧
  set page "song" (VArr []) w = (Throw SyntaxError, w).
Proof. split; reflexivity. Qed.

(** C5, as the code has it: only an absent document is taken for the
    empty store ([get] misses, [set] writes a store of one entry).  A
    stored text that is not JSON makes [get], [set] and [deleteKey] throw
    the SyntaxError of [JSON.parse] and leave the text as it is;
    [searchSongs] catches the exception and shows it as an error
    message.  [clear] removes the text. *)
Theorem absent_store_is_empty_malformed_store_throws v q d w :
  (localStorage w = Absent →
   get v q w = (Ok VNull, w) ∧
   set v q d w
   = (Ok (),
      {| localStorage := Doc [(generateKey v q, JSON_entry (freshEntry w d))];
         clock := clock w; tick := tick w + 2 |}))
  ∧ (∀ raw, localStorage w = NotJSON raw →
     get v q w = (Throw SyntaxError, w) ∧
     set v q d w = (Throw SyntaxError, w) ∧
     deleteKey v q w = (Throw SyntaxError, w) ∧
     (∀ E api1 api2 api3,
        MusicPlayer.searchSongs E q api1 api2 api3 w
        = (Ok (MusicPlayer.ErrorToast SyntaxError), w)) ∧
     localStorage (clear w).2 = Absent).
Proof.
  split.
  - intros Habs.
    assert (wf_store w) as Hwf by (unfold wf_store; by rewrite Habs).
    assert (stored_cache w = []) as Hc by (unfold stored_cache; by rewrite Habs).
    split.
    + apply get_missing; [done|]. by rewrite Hc.
    + rewrite set_run by done. unfold freshEntry. rewrite Hc. simpl.
      rewrite Nat.add_0_r. reflexivity.
  - intros raw Hraw.
    assert (loadCache w = (Throw SyntaxError, w)) as Hload
      by by eapply loadCache_corrupted.
    assert (∀ v', get v' q w = (Throw SyntaxError, w)) as Hget.
    { intros v'. unfold get, bind. by rewrite Hload. }
    repeat split.
    + apply Hget.
    + unfold set, bind. by rewrite Hload.
    + unfold deleteKey, bind. by rewrite Hload.
    + intros E api1 api2 api3. unfold MusicPlayer.searchSongs, try_catch, bind.
      by rewrite Hget.
Qed.

Lemma absent_store_is_empty_malformed_store_throws_witness :
  let w := worldAt Absent 5 in
  let w' := worldAt (NotJSON "{oops") 5 in
  localStorage w = Absent ∧ localStorage w' = NotJSON "{oops" ∧
  get page "song" w = (Ok VNull, w) ∧
  get page "song" w' = (Throw SyntaxError, w').
Proof.
  intros w w'.
  split; [reflexivity|]. split; [reflexivity|]. split.
  - exact (proj1 (proj1 (absent_store_is_empty_malformed_store_throws
                           page "song" VNull w) eq_refl)).
  - exact (proj1 (proj2 (absent_store_is_empty_malformed_store_throws
                           page "song" VNull w') "{oops" eq_refl)).
Defined.
End MalformedStore.

(** ** A payload that is not a list (C9) *)

Section NonListPayload.
Import CacheManager.
Implicit Types (q : string) (w : world) (v : variant) (e : entry).

(** C9, against the claim: the [get] of the page scripts returns a live
    entry's payload as it is stored, list or not. *)
Lemma get_returns_non_list_payload :
  let e := {| data := VStr "oops"; timestamp := 0; lru := 0 |} in
  let w := worldAt (Doc [("search_song", e)]) 0 in
  obj_get (generateKey page "song") (stored_cache w) = Some e ∧
  isArray (data e) = false ∧
  clock w (tick w) - timestamp e ≤ ttl ∧
  ∃ w', get page "song" w = (Ok (VStr "oops"), w').
Proof.
  intros e w.
  assert (wf_store w) as Hwf by (apply (bool_decide_unpack _); by vm_compute).
  assert (obj_get (generateKey page "song") (stored_cache w) = Some e) as Hget
    by reflexivity.
  split; [exact Hget|]. split; [reflexivity|]. split; [by vm_compute|].
  rewrite (get_hit page "song" w e Hwf Hget) by by vm_compute.
  eexists. reflexivity.
Qed.

(** C9, as the code has it: on a live entry whose payload is not a list
    [get] does not throw; it stamps the entry with the reading of the
    clock and writes the store back.  The [get] of the page scripts
    returns the payload as it is stored: it answers [null], as on a
    miss, only when the payload itself is [null], and what it answers is
    falsy, which is how its callers tell a miss, only when the payload
    is.  The [get] of [CacheManager.js] returns the empty list, never
    [null] and never falsy, and [searchSongs] takes it for a hit and
    shows it as the cached results. *)
Theorem get_non_list_payload v q w e :
  wf_store w → obj_get (generateKey v q) (stored_cache w) = Some e →
  clock w (tick w) - timestamp e ≤ ttl → isArray (data e) = false →
  get v q w
  = (Ok (if arrayGuard v then VArr [] else data e),
     {| localStorage :=
          Doc (JSON_cache
                 (obj_set (generateKey v q)
                    {| data := data e; timestamp := timestamp e;
                       lru := clock w (S (tick w)) |}
                    (stored_cache w)));
        clock := clock w;
        tick := tick w + 2 |})
  ∧ ((if arrayGuard v then VArr [] else data e) = VNull
     ↔ arrayGuard v = false ∧ data e = VNull)
  ∧ (truthy (if arrayGuard v then VArr [] else data e) = false
     ↔ arrayGuard v = false ∧ truthy (data e) = false)
  ∧ (v = module_js →
     ∀ E api1 api2 api3, ∃ w',
       MusicPlayer.searchSongs E q api1 api2 api3 w
       = (Ok (MusicPlayer.CachedResults (VArr [])), w')).
Proof.
  intros Hwf Hget Hlive%expiredAt_false Hdata.
  pose proof (get_hit v q w e Hwf Hget Hlive) as Hrun.
  unfold hitValue in Hrun. rewrite Hdata in Hrun. split; [exact Hrun|]. split.
  - destruct (arrayGuard v); [|tauto]. split; [done|]. by intros [? _].
  - split; [|intros -> E api1 api2 api3].
    { destruct (arrayGuard v); [|tauto]. split; [done|]. by intros [? _]. } simpl in Hrun.
    unfold MusicPlayer.searchSongs, try_catch, bind. rewrite Hrun. simpl.
    eexists. reflexivity.
Qed.

Lemma get_non_list_payload_witness :
  let e := {| data := VStr "oops"; timestamp := 0; lru := 0 |} in
  let w := worldAt (Doc [("multisearch_song", e)]) 0 in
  wf_store w ∧ obj_get (generateKey module_js "song") (stored_cache w) = Some e ∧
  clock w (tick w) - timestamp e ≤ ttl ∧ isArray (data e) = false ∧
  ∃ w', get module_js "song" w = (Ok (VArr []), w') ∧
        lru <$> obj_get (generateKey module_js "song") (stored_cache w') = Some 1.
Proof.
  intros e w.
  assert (wf_store w) as Hwf by (apply (bool_decide_unpack _); by vm_compute).
  assert (obj_get (generateKey module_js "song") (stored_cache w) = Some e) as Hget
    by reflexivity.
  assert (clock w (tick w) - timestamp e ≤ ttl) as Hlive by by vm_compute.
  split; [exact Hwf|]. split; [exact Hget|]. split; [exact Hlive|].
  split; [reflexivity|].
  eexists. split;
    [exact (proj1 (get_non_list_payload module_js "song" w e Hwf Hget Hlive eq_refl))|].
  reflexivity.
Defined.
End NonListPayload.

(** ** Which entries the sweep evicts (C4) *)

Section LeastRecentlyUsed.
Import CacheManager.
Implicit Types (c : cache) (k q : string) (w : world) (v : variant) (e : entry).

Lemma lru_of_elem_of c k e : NoDup (obj_keys c) → (k, e) ∈ c → lru_of c k = lru e.
Proof. intros Hnd Hin. unfold lru_of. by rewrite (obj_get_elem_of _ _ _ Hnd Hin). Qed.

(** In terms of entries: what [evictOldest] removes was used no later
    than what it keeps. *)
Lemma evictOldest_entries c kr er kk ek :
  NoDup (obj_keys c) → (maxItems < length c)%nat →
  (kr, er) ∈ c → kr ∉ obj_keys (evictOldest c) → (kk, ek) ∈ evictOldest c →
  lru er ≤ lru ek.
Proof.
  intros Hnd Hlt Hr Hgone Hkept.
  assert ((kk, ek) ∈ c) as Hk by (eapply elem_of_sublist, evictOldest_sublist; done).
  rewrite <-(lru_of_elem_of c kr er), <-(lru_of_elem_of c kk ek) by done.
  apply evictOldest_order; [done..| | |].
  - apply elem_of_obj_keys. by exists er.
  - done.
  - apply elem_of_obj_keys. by exists ek.
Qed.

(** A hit of [get] stamps the entry with the reading of the clock and
    leaves the time of last use of every other entry as it was. *)
Lemma get_refreshes_lru v q w item :
  wf_store w → obj_get (generateKey v q) (stored_cache w) = Some item →
  clock w (tick w) - timestamp item ≤ ttl →
  ∃ r w', get v q w = (Ok r, w') ∧
    lru <$> obj_get (generateKey v q) (stored_cache w') = Some (clock w (S (tick w))) ∧
    ∀ k, k ≠ generateKey v q →
      lru <$> obj_get k (stored_cache w') = lru <$> obj_get k (stored_cache w).
Proof.
  intros Hwf Hget Hlive%expiredAt_false.
  rewrite (get_hit v q w item Hwf Hget Hlive). eexists _, _. split; [done|].
  unfold stored_cache at 1 3. simpl. split.
  - by rewrite obj_get_JSON_cache, obj_get_set_eq.
  - intros k Hk. rewrite obj_get_JSON_cache, obj_get_set_ne by done.
    by destruct (obj_get k (stored_cache w)).
Qed.

(** C4: the entries that are not expired, [survivors], are those whose
    age is within the time to live at the reading that judges them.
    When there are more than [maxItems] of them, the sweep returns
    exactly [maxItems] of them, in their order, and every entry it removed was last used no later than every
    entry it kept.  So of two live entries the one used later stays
    whenever the other stays; and a hit of [get] is what makes an entry
    the one used later: it sets the entry's [lru] to the reading of the
    clock and changes no other. *)
Theorem sweep_evicts_least_recently_used w c :
  NoDup (obj_keys c) → (maxItems < length (survivors w c))%nat →
  (∀ (i : nat) k e, c !! i = Some (k, e) →
     (k, e) ∈ survivors w c ↔ clock w (tick w + i) - timestamp e ≤ ttl)
  ∧ (∃ c', cleanCache c w = (Ok c', advance w (length c)) ∧
     length c' = maxItems ∧
     c' `sublist_of` survivors w c ∧
     (∀ kr er kk ek,
        (kr, er) ∈ survivors w c → kr ∉ obj_keys c' → (kk, ek) ∈ c' →
        lru er ≤ lru ek) ∧
     (∀ k e k' e',
        (k, e) ∈ survivors w c → (k', e') ∈ survivors w c → lru e' < lru e →
        k' ∈ obj_keys c' → k ∈ obj_keys c'))
  ∧ (∀ v q w0 item,
       wf_store w0 → obj_get (generateKey v q) (stored_cache w0) = Some item →
       clock w0 (tick w0) - timestamp item ≤ ttl →
       ∃ r w1, get v q w0 = (Ok r, w1) ∧
         lru <$> obj_get (generateKey v q) (stored_cache w1)
         = Some (clock w0 (S (tick w0))) ∧
         ∀ k, k ≠ generateKey v q →
           lru <$> obj_get k (stored_cache w1) = lru <$> obj_get k (stored_cache w0)).
Proof.
  intros Hnd Hlt.
  split; [intros i k e Hi; by rewrite (elem_of_survivors w c i k e Hnd Hi), expiredAt_false|].
  split; [|apply get_refreshes_lru].
  pose proof (survivors_NoDup w c Hnd) as Hnd1.
  rewrite cleanCache_run by done. eexists. split; [done|].
  split; [by apply evictOldest_length|].
  split; [apply evictOldest_sublist|].
  split; [intros kr er kk ek; by apply evictOldest_entries|].
  intros k e k' e' Hk Hk' Hlru Hkept.
  destruct (decide (k ∈ obj_keys (evictOldest (survivors w c)))) as [|Hgone]; [done|].
  apply elem_of_obj_keys in Hkept as [e'' Hkept].
  assert ((k', e'') ∈ survivors w c) as Hin
    by (eapply elem_of_sublist, evictOldest_sublist; done).
  assert (e'' = e') as ->.
  { apply (obj_get_elem_of _ _ _ Hnd1) in Hin, Hk'. congruence. }
  pose proof (evictOldest_entries _ k e k' e' Hnd1 Hlt Hk Hgone Hkept). lia.
Qed.

Lemma sweep_evicts_least_recently_used_witness :
  let c := sampleCache 17 0 in
  let w := worldAt (Doc c) 100 in
  NoDup (obj_keys c) ∧ (maxItems < length (survivors w c))%nat ∧
  ∃ c', cleanCache c w = (Ok c', advance w (length c)) ∧ length c' = maxItems.
Proof.
  intros c w.
  assert (NoDup (obj_keys c)) as Hnd by (apply (bool_decide_unpack _); by vm_compute).
  assert (maxItems < length (survivors w c))%nat as Hlt
    by (apply (bool_decide_unpack _); by vm_compute).
  split; [exact Hnd|]. split; [exact Hlt|].
  destruct (proj1 (proj2 (sweep_evicts_least_recently_used w c Hnd Hlt)))
    as (c' & Hrun & Hlen & _).
  exists c'. split; [exact Hrun|exact Hlen].
Defined.

(** The run of [refreshScenario] from an empty store: [q0], refreshed by
    the [get], is still there at the end, and [q1], the least recently
    used of the others, is the one evicted. *)
Example refreshed_key_survives :
  obj_keys (stored_cache (refreshScenario (worldAt Absent 0)).2)
  = (λ i : nat, generateKey page ("q" +:+ pretty i)) <$> [0; 2; 3; 4; 5; 6; 7; 8; 9; 10; 11; 12; 13; 14; 15; 16]%nat.
Proof. by vm_compute. Qed.
End LeastRecentlyUsed.

(** ** Printing a value *)

Section Printing.
Context (E : engine).
Implicit Types (v : jsval) (l : list jsval).

Lemma join_with_spec (print : jsval → result string) l :
  Forall (λ x, match print x with
               | Ok _ => printable x = true
               | Throw e => printable x = false ∧ e = TypeError
               end) l →
  match join_with print l with
  | Ok _ => forallb printable l = true
  | Throw e => forallb printable l = false ∧ e = TypeError
  end.
Proof.
  induction 1 as [|x l Hx _ IH]; [done|].
  assert (match (match x with VUndef | VNull => Ok "" | _ => print x end) with
          | Ok _ => printable x = true
          | Throw e => printable x = false ∧ e = TypeError
          end) as Hex by (by destruct x).
  cbn [join_with forallb].
  destruct (match x with VUndef | VNull => Ok "" | _ => print x end) as [sx|e];
    simpl.
  - rewrite Hex. destruct l as [|y l]; [done|].
    by destruct (join_with print (y :: l)).
  - by destruct Hex as [-> ->].
Qed.

(** [String(v)] returns exactly on the printable values, and what it
    throws otherwise is a TypeError. *)
Lemma ToString_spec v :
  match ToString E v with
  | Ok _ => printable v = true
  | Throw e => printable v = false ∧ e = TypeError
  end.
Proof.
  induction v as [| |b|n|s|l IHl|ps _|name] using jsval_nested_ind; try done.
  - by destruct b.
  - simpl. by apply join_with_spec.
  - simpl. by destruct (obj_get "toString" ps).
Qed.

Lemma ToString_printable v :
  ToString E v = if printable v then Ok (printed E v) else Throw TypeError.
Proof.
  pose proof (ToString_spec v) as Hv. unfold printed.
  destruct (ToString E v) as [s|e].
  - by rewrite Hv.
  - by destruct Hv as [-> ->].
Qed.
End Printing.

(** ** Validation of the raw responses (C8) *)

Section Validators.
Import MusicPlayer.
Context (E : engine).
Implicit Types (song response item : jsval) (songs : list jsval).

Lemma get_prop_readable v name : nullish v = false → get_prop v name = Ok (prop v name).
Proof. unfold prop. by destruct v. Qed.

Lemma get_prop_nullish v name : nullish v = true → get_prop v name = Throw TypeError.
Proof. by destruct v. Qed.

Lemma mapQuality_printable br :
  mapQuality E br
  = if printable br then Ok (qualityLabel (printed E br)) else Throw TypeError.
Proof.
  unfold mapQuality, qualityLabel. rewrite ToString_printable.
  destruct (printable br); unfold rbind; [|done].
  destruct (obj_get (printed E br) qualityMap); [done|]. by case_bool_decide.
Qed.

(** A raw song gives its item when it is readable and a TypeError
    otherwise. *)
Lemma songAPI1_readable song :
  songAPI1 E song = if readable1 song then Ok (itemAPI1 E song) else Throw TypeError.
Proof.
  unfold songAPI1, readable1, itemAPI1.
  destruct (nullish song) eqn:Hs; simpl.
  - by rewrite get_prop_nullish.
  - rewrite !get_prop_readable by done. simpl. rewrite ToString_printable.
    by destruct (printable (prop song "song_title")).
Qed.

Lemma songAPI23_readable source song :
  songAPI23 E source song
  = if readable23 song then Ok (itemAPI23 E source song) else Throw TypeError.
Proof.
  unfold songAPI23, readable23, itemAPI23, quality23.
  destruct (nullish song) eqn:Hs; simpl.
  - by rewrite get_prop_nullish.
  - rewrite !get_prop_readable by done. simpl. rewrite ToString_printable.
    destruct (printable (prop song "title")); [|done]. simpl.
    rewrite mapQuality_printable.
    by destruct (printable (or_else (prop song "br") (VNum 1))).
Qed.

Lemma map_result_readable {A B} (f : A → result B) (p : A → bool) (g : A → B) e
    (xs : list A) :
  (∀ x, f x = if p x then Ok (g x) else Throw e) →
  map_result f xs = if forallb p xs then Ok (g <$> xs) else Throw e.
Proof.
  intros Hf. induction xs as [|x xs IH]; [done|]. simpl.
  rewrite Hf. destruct (p x); [|done]. simpl. rewrite IH.
  by destruct (forallb p xs).
Qed.

Lemma filter_result_Forall (f : jsval → result bool) (P : jsval → Prop) xs ys :
  (∀ x, f x = Ok true → P x) → filter_result f xs = Ok ys → Forall P ys.
Proof.
  intros Hf. revert ys. induction xs as [|x xs IH]; intros ys; simpl.
  - intros [= <-]. constructor.
  - destruct (f x) as [[|]|] eqn:Hx; [| |done]; simpl;
      (destruct (filter_result f xs) as [ys'|]; [|done]); simpl; intros [= <-].
    + constructor; [by apply Hf|by apply IH].
    + by apply IH.
Qed.

Lemma validSong_true song :
  validSong song = Ok true →
  truthy (prop song "n") = true ∧ truthy (prop song "song_title") = true
  ∧ truthy (prop song "song_singer") = true.
Proof.
  unfold validSong, prop.
  destruct (get_prop song "n") as [n|]; [|done]. simpl.
  destruct (truthy n); [|done]. simpl.
  destruct (get_prop song "song_title") as [t|]; [|done]. simpl.
  destruct (truthy t); [|done]. simpl.
  destruct (get_prop song "song_singer") as [a|]; [|done]. simpl.
  by intros [= ->].
Qed.

Lemma truthy_readable response : truthy response = true → nullish response = false.
Proof. by destruct response. Qed.

(** What each validator returns, for every response. *)
Lemma validateDataAPI1_run response :
  validateDataAPI1 E response
  = match accepted12 response with
    | Some songs =>
        if forallb readable1 songs then Ok (itemAPI1 E <$> songs) else Throw TypeError
    | None => Ok []
    end.
Proof.
  unfold validateDataAPI1, accepted12.
  destruct (truthy response) eqn:Ht; [|done]. simpl.
  rewrite !get_prop_readable by by apply truthy_readable. simpl.
  destruct (strict_eq_num (prop response "code") 200); [|done]. simpl.
  destruct (prop response "data"); try done.
  apply map_result_readable, songAPI1_readable.
Qed.

Lemma validateDataAPI2_run response :
  validateDataAPI2 E response
  = match accepted12 response with
    | Some songs =>
        if forallb readable23 songs
        then Ok (itemAPI23 E "网易云" <$> songs) else Throw TypeError
    | None => Ok []
    end.
Proof.
  unfold validateDataAPI2, accepted12.
  destruct (truthy response) eqn:Ht; [|done]. simpl.
  rewrite !get_prop_readable by by apply truthy_readable. simpl.
  destruct (strict_eq_num (prop response "code") 200); [|done]. simpl.
  destruct (prop response "data"); try done.
  apply map_result_readable, songAPI23_readable.
Qed.

Lemma validateDataAPI3_run response :
  validateDataAPI3 E response
  = match accepted3 response with
    | Some songs =>
        if forallb readable23 songs
        then Ok (itemAPI23 E "酷狗音乐" <$> songs) else Throw TypeError
    | None => Ok []
    end.
Proof.
  unfold validateDataAPI3, accepted3.
  destruct (truthy response) eqn:Ht; [|done]. simpl.
  rewrite !get_prop_readable by by apply truthy_readable. simpl.
  destruct (prop response "data"); try done.
  apply map_result_readable, songAPI23_readable.
Qed.

(** C8, against the claim: the first validator accepts a response whose
    one song has an empty title and an empty singer, and produces the
    item for it, with the empty title and the empty artist. *)
Lemma validateDataAPI1_keeps_empty_title_and_artist :
  let song := VObj [("n", VNum 1); ("song_title", VStr ""); ("song_singer", VStr "")] in
  validateDataAPI1 asciiEngine (VObj [("code", VNum 200); ("data", VArr [song])])
  = Ok [VObj [("source", VStr "QQ音乐"); ("id", VNum 1); ("title", VStr "");
              ("artist", VStr ""); ("quality", VStr "标准音质")]].
Proof. reflexivity. Qed.

(** C8, as the code has it, for every response.  A response that fails
    the shape check of a validator gives the empty list.  A response
    that passes it gives exactly one item for every raw song, in order,
    none dropped, when every song is readable (not [null] or [undefined],
    with a title that [String] can print and, for the second and third
    source, a [br] that can be a property key), and makes the validator
    throw a TypeError when some song is not.  The title of an item is
    [String] of the raw title, so an empty title stays empty and a
    missing one becomes the text "undefined"; the artist is the raw
    singer as it is.  Only [validateData], the validator of the
    single-source page, filters: what it returns has a truthy [n], title
    and singer. *)
Theorem validators_map_every_song response :
  validateDataAPI1 E response
  = match accepted12 response with
    | Some songs =>
        if forallb readable1 songs then Ok (itemAPI1 E <$> songs) else Throw TypeError
    | None => Ok []
    end
  ∧ validateDataAPI2 E response
    = match accepted12 response with
      | Some songs =>
          if forallb readable23 songs
          then Ok (itemAPI23 E "网易云" <$> songs) else Throw TypeError
      | None => Ok []
      end
  ∧ validateDataAPI3 E response
    = match accepted3 response with
      | Some songs =>
          if forallb readable23 songs
          then Ok (itemAPI23 E "酷狗音乐" <$> songs) else Throw TypeError
      | None => Ok []
      end
  ∧ (∀ song source,
       prop (itemAPI1 E song) "title" = VStr (printed E (prop song "song_title")) ∧
       prop (itemAPI1 E song) "artist" = prop song "song_singer" ∧
       prop (itemAPI23 E source song) "title" = VStr (printed E (prop song "title")) ∧
       prop (itemAPI23 E source song) "artist" = prop song "singer")
  ∧ printed E (VStr "") = "" ∧ printed E VUndef = "undefined"
  ∧ (∀ out, validateData response = Ok out →
       Forall (λ song, truthy (prop song "n") = true
                       ∧ truthy (prop song "song_title") = true
                       ∧ truthy (prop song "song_singer") = true) out).
Proof.
  split; [apply validateDataAPI1_run|]. split; [apply validateDataAPI2_run|].
  split; [apply validateDataAPI3_run|]. split; [done|]. split; [done|].
  split; [done|].
  intros out. unfold validateData.
  destruct (match response with
            | VUndef | VNull => Ok VUndef
            | _ => get_prop response "data"
            end) as [inner|]; [|done].
  simpl. destruct inner; try done.
  destruct (filter_result validSong items) as [valid|] eqn:Hvalid; [|done].
  simpl. destruct valid as [|song valid]; [done|]. intros [= <-].
  eapply filter_result_Forall; [|exact Hvalid]. apply validSong_true.
Qed.
End Validators.

Lemma validators_map_every_song_witness :
  let songs := [VObj [("n", VNum 1); ("title", VStr ""); ("singer", VStr "")];
                VObj [("n", VNum 2)]] in
  let response := VObj [("code", VNum 200); ("data", VArr songs)] in
  accepted12 response = Some songs ∧ forallb readable23 songs = true ∧
  MusicPlayer.validateDataAPI2 asciiEngine response
  = Ok (itemAPI23 asciiEngine "网易云" <$> songs).
Proof.
  intros songs response. split; [reflexivity|]. split; [reflexivity|].
  exact (proj1 (proj2 (validators_map_every_song asciiEngine response))).
Defined.

(** ** The merge of the three lists (C6) *)

Section Merge.
Import MusicPlayer.
Context (E : engine).
Implicit Types (item : jsval) (items earlier : list jsval) (seen : gset string) (k : string).

(** An item gets its key when it has one, and a TypeError otherwise. *)
Lemma mergeKey_keyable item :
  mergeKey E item = if keyable item then Ok (keyOf E item) else Throw TypeError.
Proof.
  unfold mergeKey, keyable, keyOf.
  destruct (nullish item) eqn:Hi; simpl.
  - by rewrite get_prop_nullish.
  - rewrite !get_prop_readable by done. simpl. rewrite ToString_printable.
    destruct (printable (or_else (prop item "title") (VStr ""))); [|done]. simpl.
    rewrite ToString_printable.
    by destruct (printable (or_else (prop item "artist") (VStr ""))).
Qed.

Lemma keyOf_strings item t a :
  prop item "title" = VStr t → prop item "artist" = VStr a →
  keyOf E item = String_toLowerCase E t +:+ "|" +:+ String_toLowerCase E a.
Proof.
  intros Ht Ha. unfold keyOf. rewrite Ht, Ha.
  assert (∀ s, printed E (or_else (VStr s) (VStr "")) = s) as Hs.
  { intros s. unfold or_else, printed. simpl. by destruct (String.eqb_spec s "") as [->|]. }
  by rewrite !Hs.
Qed.

(** The filter of the code is the merge of the specification, the set
    [seen] holding the keys of the items gone through; it throws when
    some item has no key. *)
Lemma filterSeen_firstSeen items : ∀ seen earlier,
  (∀ k, k ∈ seen ↔ k ∈ keyOf E <$> earlier) →
  filterSeen E seen items
  = if forallb keyable items then Ok (firstSeen E earlier items) else Throw TypeError.
Proof.
  induction items as [|x rest IH]; intros seen earlier Hseen; [done|].
  simpl. rewrite mergeKey_keyable. destruct (keyable x); [|done]. simpl.
  destruct (decide (keyOf E x ∈ seen)) as [Hin|Hout].
  - rewrite decide_True by by apply Hseen.
    apply IH. intros k. rewrite fmap_app, elem_of_app, <-Hseen. simpl.
    rewrite list_elem_of_singleton. split; [tauto|]. intros [?| ->]; done.
  - rewrite decide_False by by rewrite <-Hseen.
    rewrite (IH ({[keyOf E x]} ∪ seen) (earlier ++ [x])).
    + by destruct (forallb keyable rest).
    + intros k. rewrite fmap_app, elem_of_app, elem_of_union, elem_of_singleton, <-Hseen.
      simpl. rewrite list_elem_of_singleton. tauto.
Qed.

Lemma mergeResults_firstSeen items :
  mergeResults E (VArr items)
  = if forallb keyable items then Ok (firstSeen E [] items) else Throw TypeError.
Proof.
  simpl. apply filterSeen_firstSeen. intros k. simpl.
  split; [by intros ?%not_elem_of_empty|by intros ?%elem_of_nil].
Qed.

Lemma firstSeen_sublist items : ∀ earlier, firstSeen E earlier items `sublist_of` items.
Proof.
  induction items as [|x rest IH]; intros earlier; simpl; [done|].
  case_decide; [apply sublist_cons|apply sublist_skip]; apply IH.
Qed.

Lemma firstSeen_fresh items : ∀ earlier y,
  y ∈ firstSeen E earlier items → keyOf E y ∉ keyOf E <$> earlier.
Proof.
  induction items as [|x rest IH]; intros earlier y; simpl.
  - by intros ?%elem_of_nil.
  - assert (∀ z, z ∈ firstSeen E (earlier ++ [x]) rest → keyOf E z ∉ keyOf E <$> earlier)
      as Hrest.
    { intros z Hz%IH Hin. apply Hz. rewrite fmap_app, elem_of_app. by left. }
    case_decide as Hx; [apply Hrest|].
    intros [->|Hy]%elem_of_cons; [done|by apply Hrest].
Qed.

Lemma firstSeen_NoDup items : ∀ earlier, NoDup (keyOf E <$> firstSeen E earlier items).
Proof.
  induction items as [|x rest IH]; intros earlier; simpl; [constructor|].
  case_decide as Hx; [apply IH|].
  rewrite fmap_cons. constructor; [|apply IH].
  intros (y & Hk & Hy)%list_elem_of_fmap.
  apply firstSeen_fresh in Hy. apply Hy.
  rewrite fmap_app, elem_of_app, <-Hk. right. simpl. apply list_elem_of_singleton. done.
Qed.

Lemma firstWithKey_cons k x items :
  firstWithKey E k (x :: items)
  = if decide (keyOf E x = k) then Some x else firstWithKey E k items.
Proof.
  unfold firstWithKey. case_decide.
  - by rewrite filter_cons_True.
  - by rewrite filter_cons_False.
Qed.

(** Looking a key up in the merge finds the first item of the input that
    bears it, unless an earlier item took the key. *)
Lemma firstWithKey_firstSeen k items : ∀ earlier,
  firstWithKey E k (firstSeen E earlier items)
  = if decide (k ∈ keyOf E <$> earlier) then None else firstWithKey E k items.
Proof.
  induction items as [|x rest IH]; intros earlier; simpl.
  - by case_decide.
  - assert (k ∈ keyOf E <$> earlier ++ [x] ↔ k ∈ keyOf E <$> earlier ∨ k = keyOf E x)
      as Happ.
    { rewrite fmap_app, elem_of_app. simpl. by rewrite list_elem_of_singleton. }
    rewrite (firstWithKey_cons k x rest).
    destruct (decide (keyOf E x ∈ keyOf E <$> earlier)) as [Hx|Hx].
    + rewrite IH. destruct (decide (k ∈ keyOf E <$> earlier)) as [Hk|Hk].
      * rewrite decide_True; [done|]. apply Happ. by left.
      * rewrite decide_False by (intros [?| ->]%Happ; done).
        rewrite decide_False; [done|]. by intros <-.
    + rewrite firstWithKey_cons. destruct (decide (keyOf E x = k)) as [<-|Hne].
      * by rewrite decide_False.
      * rewrite IH. destruct (decide (k ∈ keyOf E <$> earlier)) as [Hk|Hk].
        -- rewrite decide_True; [done|]. apply Happ. by left.
        -- rewrite decide_False; [done|]. intros [?| ->]%Happ; done.
Qed.

Lemma keyOf_songA : keyOf E songA = "song|x".
Proof.
  rewrite (keyOf_strings songA "Song" "X") by done.
  by rewrite !toLowerCase_ascii_text.
Qed.

Lemma keyOf_songB : keyOf E songB = "song|x".
Proof.
  rewrite (keyOf_strings songB "SONG" "x") by done.
  by rewrite !toLowerCase_ascii_text.
Qed.

(** C6, as the code has it, for every list of items.  When every item
    has a key (its properties can be read and [String] can print its
    title and its artist), [mergeResults] returns the merge of the
    specification: a sublist of the input in its order, with no
    composite key twice, in which every key is borne by the first item of
    the input that bears it; when some item has no key it throws a
    TypeError.  The key of an item with a string title and a string
    artist is lowercase(title) + "|" + lowercase(artist).  On the two
    items of the example the merge is the item of the first source
    alone. *)
Theorem mergeResults_keeps_first_seen items :
  mergeResults E (VArr items)
  = (if forallb keyable items then Ok (firstSeen E [] items) else Throw TypeError)
  ∧ firstSeen E [] items `sublist_of` items
  ∧ NoDup (keyOf E <$> firstSeen E [] items)
  ∧ (∀ k, firstWithKey E k (firstSeen E [] items) = firstWithKey E k items)
  ∧ (∀ item t a,
       prop item "title" = VStr t → prop item "artist" = VStr a →
       keyOf E item = String_toLowerCase E t +:+ "|" +:+ String_toLowerCase E a)
  ∧ mergeResults E (VArr [songA; songB]) = Ok [songA].
Proof.
  split; [apply mergeResults_firstSeen|]. split; [apply firstSeen_sublist|].
  split; [apply firstSeen_NoDup|]. split.
  { intros k. rewrite firstWithKey_firstSeen.
    by rewrite decide_False by apply not_elem_of_nil. }
  split; [apply keyOf_strings|].
  rewrite mergeResults_firstSeen.
  change (forallb keyable [songA; songB]) with true. cbn [firstSeen].
  rewrite decide_False by apply not_elem_of_nil.
  rewrite decide_True; [done|].
  simpl. rewrite keyOf_songA, keyOf_songB. apply list_elem_of_singleton. done.
Qed.
End Merge.

(** C6, against the claim: the third validator takes a song whose singer
    is the object [{"toString": 1}] into an item, and on that item
    [mergeResults] throws instead of returning a merge. *)
Lemma mergeResults_throws_on_unprintable_artist :
  let song := VObj [("n", VNum 1); ("title", VStr "T");
                    ("singer", VObj [("toString", VNum 1)])] in
  let item := VObj [("source", VStr "酷狗音乐"); ("id", VNum 1); ("title", VStr "T");
                    ("artist", VObj [("toString", VNum 1)]);
                    ("quality", VStr "标准音质")] in
  MusicPlayer.validateDataAPI3 asciiEngine (VObj [("data", VArr [song])]) = Ok [item] ∧
  MusicPlayer.mergeResults asciiEngine (VArr [item]) = Throw TypeError.
Proof. split; by vm_compute. Qed.

Lemma mergeResults_keeps_first_seen_witness :
  forallb keyable [songA; songB; songA] = true ∧
  MusicPlayer.mergeResults asciiEngine (VArr [songA; songB; songA])
  = Ok (firstSeen asciiEngine [] [songA; songB; songA]) ∧
  NoDup (keyOf asciiEngine <$> firstSeen asciiEngine [] [songA; songB; songA]).
Proof.
  destruct (mergeResults_keeps_first_seen asciiEngine [songA; songB; songA])
    as (Hrun & _ & Hnd & _).
  split; [reflexivity|]. split; [exact Hrun|exact Hnd].
Defined.

(** ** The search with some requests failed (C7) *)

Section Search.
Import MusicPlayer.
Context (E : engine).
Implicit Types (q : string) (w : world) (api : settled) (l : list jsval).





End Search.



(** * Further properties of the cache *)

Section CacheKeys.
Import CacheManager.
Implicit Types (q : string) (w : world) (v : variant) (d : jsval).

Lemma toLowerCase_app s1 s2 :
  toLowerCaseASCII (s1 +:+ s2) = toLowerCaseASCII s1 +:+ toLowerCaseASCII s2.
Proof. induction s1 as [|c s1 IH]; [done|]. simpl. by rewrite IH. Qed.

Lemma encodeURIComponent_cons c s :
  encodeURIComponent (String c s)
  = encodeURIComponent (String c "") +:+ encodeURIComponent s.
Proof. simpl. by destruct (unreserved c). Qed.

Lemma encode_lower_ascii c :
  toLowerCaseASCII (encodeURIComponent (String (lower_ascii c) ""))
  = toLowerCaseASCII (encodeURIComponent (String c "")).
Proof. destruct c as [[] [] [] [] [] [] [] []]; reflexivity. Qed.

(** Lowering the case of the query before or after encoding gives the
    same key text. *)
Lemma encode_toLowerCase q :
  toLowerCaseASCII (encodeURIComponent (toLowerCaseASCII q)) = toLowerCaseASCII (encodeURIComponent q).
Proof.
  induction q as [|c q IH]; [done|].
  change (toLowerCaseASCII (String c q)) with (String (lower_ascii c) (toLowerCaseASCII q)).
  rewrite (encodeURIComponent_cons (lower_ascii c)), (encodeURIComponent_cons c).
  by rewrite !toLowerCase_app, IH, encode_lower_ascii.
Qed.

Lemma generateKey_case v q q' :
  toLowerCaseASCII q = toLowerCaseASCII q' → generateKey v q = generateKey v q'.
Proof.
  intros Hq. unfold generateKey. f_equal.
  by rewrite <-(encode_toLowerCase q), <-(encode_toLowerCase q'), Hq.
Qed.

Lemma get_same_key v q q' w :
  generateKey v q = generateKey v q' → get v q w = get v q' w.
Proof. intros Hk. unfold get. by rewrite Hk. Qed.

(** X1: two queries that differ only in the case of their ASCII letters
    have the same cache key, so [get] with one spelling, right after
    [set] with the other, returns the list that was set, as the JSON
    text carries it (within the time to live). *)
Theorem set_then_get_other_case v q q' (l : list jsval) w :
  toLowerCaseASCII q = toLowerCaseASCII q' →
  wf_store w → readAfterSet w - createdAt w ≤ ttl →
  generateKey v q = generateKey v q' ∧
  ∃ w1 w2, set v q (VArr l) w = (Ok (), w1) ∧
           get v q' w1 = (Ok (JSON_roundtrip (VArr l)), w2).
Proof.
  intros Hq Hwf Httl. pose proof (generateKey_case v q q' Hq) as Hk.
  split; [done|].
  destruct (set_then_get_JSON v q (VArr l) w Hwf Httl) as (w1 & w2 & Hset & Hget).
  exists w1, w2. split; [done|]. rewrite <-(get_same_key v q q' w1 Hk), Hget.
  do 2 f_equal. unfold hitValue. cbn [JSON_entry freshEntry data]. simpl.
  by destruct (arrayGuard v).
Qed.

Lemma set_then_get_other_case_witness :
  let w := worldAt Absent 0 in
  let l := [VStr "a"] in
  toLowerCaseASCII "Song" = toLowerCaseASCII "sONG" ∧
  wf_store w ∧ readAfterSet w - createdAt w ≤ ttl ∧
  ∃ w1 w2, set page "Song" (VArr l) w = (Ok (), w1) ∧
           get page "sONG" w1 = (Ok (VArr l), w2).
Proof.
  intros w l.
  assert (readAfterSet w - createdAt w ≤ ttl) as Httl by (vm_compute; discriminate).
  split; [reflexivity|]. split; [exact I|]. split; [exact Httl|].
  exact (proj2 (set_then_get_other_case page "Song" "sONG" l w eq_refl I Httl)).
Defined.
End CacheKeys.

Section CacheOperations.
Import CacheManager.
Implicit Types (c : cache) (k q : string) (w : world) (v : variant) (d : jsval) (e : entry).

Lemma JSON_cache_NoDup c : NoDup (obj_keys c) → NoDup (obj_keys (JSON_cache c)).
Proof. by rewrite obj_keys_JSON_cache. Qed.

(** What [get] does to the store, whatever it returns. *)
Lemma get_store v q w :
  wf_store w →
  ∃ r w', get v q w = (Ok r, w') ∧ clock w' = clock w ∧
    (localStorage w' = localStorage w
     ∨ ∃ item, obj_get (generateKey v q) (stored_cache w) = Some item ∧
         localStorage w'
         = Doc (JSON_cache
                  (obj_set (generateKey v q)
                     {| data := data item; timestamp := timestamp item;
                        lru := clock w (S (tick w)) |} (stored_cache w)))).
Proof.
  intros Hwf.
  destruct (obj_get (generateKey v q) (stored_cache w)) as [item|] eqn:Hitem.
  - destruct (expiredAt (clock w (tick w)) (timestamp item)) eqn:Hexp.
    + rewrite (get_expired _ _ _ _ Hwf Hitem Hexp). eexists _, _. split; [done|].
      split; [done|]. by left.
    + rewrite (get_hit _ _ _ _ Hwf Hitem Hexp). eexists _, _. split; [done|].
      split; [done|]. right. by exists item.
  - rewrite (get_missing _ _ _ Hwf Hitem). eexists _, _. split; [done|].
    split; [done|]. by left.
Qed.

(** X2: [get] never adds, removes or reorders entries and never changes
    a creation time: the keys of the store and the [timestamp] of every
    entry are the same after [get] as before, whether it hits, misses or
    finds the entry expired. *)
Theorem get_keeps_keys_and_timestamps v q w :
  wf_store w →
  ∃ r w', get v q w = (Ok r, w') ∧
    obj_keys (stored_cache w') = obj_keys (stored_cache w) ∧
    ∀ k, timestamp <$> obj_get k (stored_cache w')
         = timestamp <$> obj_get k (stored_cache w).
Proof.
  intros Hwf. destruct (get_store v q w Hwf) as (r & w' & Hget & _ & [Hsame|Hhit]).
  - exists r, w'. split; [done|]. unfold stored_cache. by rewrite Hsame.
  - destruct Hhit as (item & Hitem & Hdoc). exists r, w'. split; [done|].
    unfold stored_cache at 1 3. rewrite Hdoc. split.
    + by rewrite obj_keys_JSON_cache, obj_keys_set, Hitem.
    + intros k. rewrite obj_get_JSON_cache.
      destruct (decide (k = generateKey v q)) as [->|Hne].
      * by rewrite obj_get_set_eq, Hitem.
      * rewrite obj_get_set_ne by done. by destruct (obj_get k (stored_cache w)).
Qed.

Lemma get_keeps_keys_and_timestamps_witness :
  let w := worldAt (Doc (sampleCache 3 0)) 10 in
  wf_store w ∧
  ∃ r w', get page "q1" w = (Ok r, w') ∧
          obj_keys (stored_cache w') = obj_keys (stored_cache w).
Proof.
  intros w.
  assert (wf_store w) as Hwf by (apply (bool_decide_unpack _); by vm_compute).
  split; [exact Hwf|].
  destruct (get_keeps_keys_and_timestamps page "q1" w Hwf) as (r & w' & Hget & Hkeys & _).
  exists r, w'. split; [exact Hget|exact Hkeys].
Defined.

(** X3: [deleteKey] does not throw on a store that is absent or a cache
    object, whether the key is there or not; afterwards the key is gone
    and [get] of the query misses without touching the store, and every
    other key holds what it held. *)
Theorem deleteKey_then_get v q w :
  wf_store w →
  ∃ w1, deleteKey v q w = (Ok (), w1) ∧
    obj_get (generateKey v q) (stored_cache w1) = None ∧
    get v q w1 = (Ok VNull, w1) ∧
    (∀ k, k ≠ generateKey v q →
       obj_get k (stored_cache w1) = JSON_entry <$> obj_get k (stored_cache w)) ∧
    (obj_get (generateKey v q) (stored_cache w) = None →
     stored_cache w1 = JSON_cache (stored_cache w)).
Proof.
  intros Hwf. rewrite deleteKey_run by done.
  set (c1 := JSON_cache (obj_delete (generateKey v q) (stored_cache w))).
  set (w1 := {| localStorage := Doc c1; clock := clock w; tick := tick w |}).
  assert (stored_cache w1 = c1) as Hc1 by reflexivity.
  exists w1. split; [done|]. rewrite Hc1.
  assert (obj_get (generateKey v q) c1 = None) as Hgone.
  { unfold c1. by rewrite obj_get_JSON_cache, obj_get_delete_eq. }
  split; [done|]. split; [|split].
  - apply get_missing; [|by rewrite Hc1]. unfold wf_store. simpl.
    apply JSON_cache_NoDup, obj_keys_delete_NoDup. by apply wf_store_NoDup.
  - intros k Hk. unfold c1. by rewrite obj_get_JSON_cache, obj_get_delete_ne.
  - intros Habs. unfold c1. rewrite obj_delete_absent; [done|].
    by apply obj_get_None_keys.
Qed.

Lemma deleteKey_then_get_witness :
  let w := worldAt (Doc (sampleCache 3 0)) 10 in
  wf_store w ∧
  ∃ w1, deleteKey page "q1" w = (Ok (), w1) ∧ get page "q1" w1 = (Ok VNull, w1).
Proof.
  intros w.
  assert (wf_store w) as Hwf by (apply (bool_decide_unpack _); by vm_compute).
  split; [exact Hwf|].
  destruct (deleteKey_then_get page "q1" w Hwf) as (w1 & Hdel & _ & Hget & _).
  exists w1. split; [exact Hdel|exact Hget].
Defined.

(** X4: [clear] works on any stored text, a text that is not JSON
    included, and leaves no document: after it every [get] misses and a
    [set] succeeds and writes a store holding the one new entry. *)
Theorem clear_resets_any_store w :
  ∃ w1, clear w = (Ok (), w1) ∧ localStorage w1 = Absent ∧
    (∀ v q, get v q w1 = (Ok VNull, w1)) ∧
    (∀ v q d, ∃ w2, set v q d w1 = (Ok (), w2) ∧
       stored_cache w2 = [(generateKey v q, JSON_entry (freshEntry w1 d))]).
Proof.
  eexists. split; [reflexivity|]. split; [reflexivity|]. split.
  - intros v q. by apply get_missing.
  - intros v q d. rewrite set_run by done. eexists. split; [done|]. reflexivity.
Qed.
Lemma wf_store_written c clk t :
  NoDup (obj_keys c) → wf_store {| localStorage := Doc c; clock := clk; tick := t |}.
Proof. done. Qed.

Lemma stored_cache_written c clk t :
  stored_cache {| localStorage := Doc c; clock := clk; tick := t |} = c.
Proof. done. Qed.

Lemma wf_store_Doc w c : localStorage w = Doc c → NoDup (obj_keys c) → wf_store w.
Proof. unfold wf_store. by intros ->. Qed.

Lemma stored_cache_Doc w c : localStorage w = Doc c → stored_cache w = c.
Proof. unfold stored_cache. by intros ->. Qed.

(** One call on a store that is absent or a cache object returns, leaves
    such a store, and only [set] can make it longer. *)
Lemma runOp_step v op w :
  wf_store w →
  ∃ r w', runOp v op w = (Ok r, w') ∧ wf_store w' ∧
    (length (stored_cache w')
     ≤ match op with
       | OpSet _ _ => maxItems + 1
       | _ => length (stored_cache w)
       end)%nat.
Proof.
  intros Hwf. pose proof (wf_store_NoDup w Hwf) as Hnd.
  destruct op as [q|q d|q|]; unfold runOp.
  - destruct (get_store v q w Hwf) as (r & w' & Hget & _ & [Hsame|Hhit]).
    + exists r, w'. split; [done|]. unfold wf_store, stored_cache in *.
      by rewrite Hsame.
    + destruct Hhit as (item & Hitem & Hdoc). exists r, w'. split; [done|].
      rewrite (stored_cache_Doc _ _ Hdoc). split.
      * apply (wf_store_Doc _ _ Hdoc), JSON_cache_NoDup. by apply obj_keys_set_NoDup.
      * by rewrite JSON_cache_length, obj_set_length, Hitem.
  - unfold bind. rewrite set_run by done. unfold ret. eexists _, _. split; [done|].
    rewrite stored_cache_written. split.
    + apply wf_store_written, JSON_cache_NoDup, obj_keys_set_NoDup.
      by apply evictOldest_NoDup, survivors_NoDup.
    + rewrite JSON_cache_length, obj_set_length.
      pose proof (evictOldest_length_le (survivors w (stored_cache w))
                    (survivors_NoDup _ _ Hnd)).
      unfold maxItems in *. destruct (obj_get _ _); lia.
  - unfold bind. rewrite deleteKey_run by done. unfold ret. eexists _, _. split; [done|].
    rewrite stored_cache_written. split.
    + apply wf_store_written, JSON_cache_NoDup. by apply obj_keys_delete_NoDup.
    + rewrite JSON_cache_length, obj_delete_filter. apply length_filter.
  - eexists _, _. split; [reflexivity|]. split; [done|]. simpl. lia.
Qed.

(** X5: whatever calls of [get], [set], [deleteKey] and [clear] are made
    one after the other on a store that is absent or a cache object,
    none of them throws, each returns its result, the store stays a
    cache object with no key twice, and it never holds more entries than
    it did at the start or [maxItems + 1], whichever is larger. *)
Theorem runOps_keep_store v ops w :
  wf_store w →
  ∃ rs w', runOps v ops w = (Ok rs, w') ∧ length rs = length ops ∧ wf_store w' ∧
    (length (stored_cache w') ≤ length (stored_cache w) `max` (maxItems + 1))%nat.
Proof.
  revert w. induction ops as [|op ops IH]; intros w Hwf.
  - exists [], w. split; [done|]. split; [done|]. split; [done|]. lia.
  - destruct (runOp_step v op w Hwf) as (r & w1 & Hop & Hwf1 & Hlen1).
    destruct (IH w1 Hwf1) as (rs & w' & Hops & Hrs & Hwf' & Hlen').
    exists (r :: rs), w'. split.
    { cbn [runOps]. unfold bind at 1. rewrite Hop. unfold bind at 1. by rewrite Hops. }
    split; [simpl; lia|]. split; [done|].
    destruct op; lia.
Qed.

Lemma runOps_keep_store_witness :
  let w := worldAt (Doc (sampleCache 3 0)) 10 in
  let ops := [OpSet "a" (VArr [VStr "x"]); OpGet "a"; OpDeleteKey "q1"; OpGet "q1";
              OpClear; OpGet "a"] in
  wf_store w ∧
  ∃ rs w', runOps page ops w = (Ok rs, w') ∧ length rs = 6%nat ∧ wf_store w'.
Proof.
  intros w ops.
  assert (wf_store w) as Hwf by (apply (bool_decide_unpack _); by vm_compute).
  split; [exact Hwf|].
  destruct (runOps_keep_store page ops w Hwf) as (rs & w' & Hrun & Hlen & Hwf' & _).
  exists rs, w'. split; [exact Hrun|]. split; [exact Hlen|exact Hwf'].
Defined.
End CacheOperations.
